(** * fix_error_vars.py: scoped rewriting of [error] to [_error] in catch blocks

    A shallow embedding of [fix_error_references] from [src/fix_error_vars.py]
    and the properties of it that the specification states.

    The script reads a JavaScript file as a Python [str], splits it at every
    match of the header pattern [catch\s*\(\s*_error\s*\)\s*\{], looks in each
    piece for the closing brace of the block by counting braces, applies five
    [re.sub] rules to the text before that brace, joins the pieces again and
    writes the file when the text changed.

    The second script of the repository, [src/extension/icons/create_icons.py],
    draws the icons of the extension; its geometry is embedded in the module
    [Icons] below. *)

From Stdlib Require Import String Ascii.
From Stdlib Require Import List NArith ZArith Bool Lia.
From Stdlib Require DecimalString DecimalZ DecimalPos.
Import ListNotations.

(** ** Text

    A Python [str] is a sequence of Unicode code points. *)

Definition char := N.
Definition text := list char.

(** [txt] turns a literal into a text (one code point per ASCII character). *)
Definition chr (a : ascii) : char := N_of_ascii a.
Arguments chr a%_char : simpl never.

Definition txt (s : string) : text :=
  map chr (list_ascii_of_string s).

Fixpoint text_eqb (a b : text) : bool :=
  match a, b with
  | [], [] => true
  | x :: a', y :: b' => N.eqb x y && text_eqb a' b'
  | _, _ => false
  end.

(** ** Character classes of Python's [re] on [str] patterns

    [\s] and [\w] follow the Unicode database of the interpreter.  Their
    values on ASCII are fixed and written out below; the database, which is
    not part of the repository, is a parameter for the code points from 128
    upwards. *)

Class UnicodeTables := {
  uni_space : char -> bool;
  uni_alnum : char -> bool
}.

(** The tables with no entry above ASCII, to run the functions on ASCII
    inputs (where the tables are not consulted). *)
Definition ascii_tables : UnicodeTables :=
  {| uni_space := fun _ => false; uni_alnum := fun _ => false |}.

Definition between (lo hi c : N) : bool := N.leb lo c && N.leb c hi.

Section Regex.

Context {U : UnicodeTables}.

(** [\s]: TAB, LF, VT, FF, CR, FS, GS, RS, US and space in ASCII. *)
Definition is_space (c : char) : bool :=
  if (c <? 128)%N then between 9%N 13%N c || between 28%N 32%N c else uni_space c.

(** [\w]: ASCII letters and digits, the underscore, and the alphanumerics of
    the Unicode database. *)
Definition is_word (c : char) : bool :=
  if (c <? 128)%N
  then between (chr "0") (chr "9") c || between (chr "A") (chr "Z") c
       || between (chr "a") (chr "z") c || N.eqb c (chr "_")
  else uni_alnum c.

Definition is_word_opt (o : option char) : bool :=
  match o with Some c => is_word c | None => false end.

(** [\b] holds between a word character and a non-word character or an end
    of the text. *)
Definition at_boundary (prev next : option char) : bool :=
  xorb (is_word_opt prev) (is_word_opt next).

(** ** The regular expressions of the script

    The six patterns of the script use literal characters, escaped
    punctuation, [\s*] and [\b] only. *)

Inductive atom :=
| Ch (c : char)     (* a literal character, escaped or not *)
| Spaces            (* \s* *)
| WordB.            (* \b *)

Definition regex := list atom.

(** Reading a pattern as it is written in the source.  A construct the
    script does not use gives [None]. *)
Fixpoint compile_chars (l : list ascii) : option regex :=
  match l with
  | [] => Some []
  | "\"%char :: "s"%char :: "*"%char :: l' => option_map (cons Spaces) (compile_chars l')
  | "\"%char :: "b"%char :: l' => option_map (cons WordB) (compile_chars l')
  | "\"%char :: c :: l' =>
      if is_word (chr c) then None
      else option_map (cons (Ch (chr c))) (compile_chars l')
  | c :: l' =>
      if existsb (Ascii.eqb c) (list_ascii_of_string ".^$*+?{}[]|()\")
      then None
      else option_map (cons (Ch (chr c))) (compile_chars l')
  end.

Definition compile (s : string) : option regex :=
  compile_chars (list_ascii_of_string s).

(** [match_here r prev s]: the length of the match of [r] at the start of
    [s], where [prev] is the character before [s] in the whole text.  [\s*]
    is greedy and gives back characters when the rest of the pattern fails,
    as the backtracking matcher of [re] does. *)
Fixpoint match_here (r : regex) : option char -> text -> option nat :=
  match r with
  | [] => fun _ _ => Some 0
  | Ch c :: r' => fun _ s =>
      match s with
      | x :: s' =>
          if N.eqb x c then option_map S (match_here r' (Some x) s') else None
      | [] => None
      end
  | WordB :: r' => fun prev s =>
      if at_boundary prev (hd_error s) then match_here r' prev s else None
  | Spaces :: r' =>
      fix star (prev : option char) (s : text) {struct s} : option nat :=
        match s with
        | x :: s' =>
            if is_space x then
              match star (Some x) s' with
              | Some n => Some (S n)
              | None => match_here r' prev s
              end
            else match_here r' prev s
        | [] => match_here r' prev s
        end
  end.

(** The scan that [re.split], [re.sub] and [re.findall] share: from left to
    right, the pattern is tried at each position, and the search resumes
    after a match.  [skip] counts the characters of the current match still
    to pass.  The patterns of the script match no empty text; an empty match
    is not taken here. *)
Inductive token :=
| Plain (c : char)    (* a character outside every match *)
| Match (m : text).   (* a matched text *)

Fixpoint scan_go (r : regex) (prev : option char) (skip : nat) (s : text)
  : list token :=
  match s with
  | [] => []
  | c :: s' =>
      match skip with
      | S k => scan_go r (Some c) k s'
      | O =>
          match match_here r prev s with
          | Some (S k) => Match (firstn (S k) s) :: scan_go r (Some c) k s'
          | _ => Plain c :: scan_go r (Some c) 0 s'
          end
      end
  end.

Definition scan (r : regex) (prev : option char) (s : text) : list token :=
  scan_go r prev 0 s.

(** [re.split(r, s)] for a pattern without groups: the texts between the
    matches, an empty one at an end where a match touches it. *)
Fixpoint pieces (toks : list token) : list text :=
  match toks with
  | [] => [[]]
  | Plain c :: toks' =>
      match pieces toks' with
      | p :: ps => (c :: p) :: ps
      | [] => [[c]]
      end
  | Match _ :: toks' => [] :: pieces toks'
  end.

Definition re_split (r : regex) (s : text) : list text :=
  pieces (scan r None s).

(** [re.findall(r, s)], the matched texts; the script does not call it, it
    names the headers as they stand in the input. *)
Fixpoint matches (toks : list token) : list text :=
  match toks with
  | [] => []
  | Plain _ :: toks' => matches toks'
  | Match m :: toks' => m :: matches toks'
  end.

Definition re_findall (r : regex) (s : text) : list text :=
  matches (scan r None s).

(** [re.sub(r, repl, s)] for a replacement without escapes. *)
Definition render (repl : text) (t : token) : text :=
  match t with
  | Plain c => [c]
  | Match _ => repl
  end.

Definition sub_from (r : regex) (repl : text) (prev : option char) (s : text)
  : text :=
  concat (map (render repl) (scan r prev s)).

Definition re_sub (r : regex) (repl : text) (s : text) : text :=
  sub_from r repl None s.

(** ** The patterns *)

(** [r'catch\s*\(\s*_error\s*\)\s*\{'] *)
Definition catch_pattern : regex :=
  map Ch (txt "catch") ++ [Spaces; Ch (chr "("); Spaces]
  ++ map Ch (txt "_error") ++ [Spaces; Ch (chr ")"); Spaces; Ch (chr "{")].

(** [r'\berror\.'], [r'\(error\)'], [r', error\)'], [r'throw error;'] and
    [r'return error;'] *)
Definition pat_member : regex := WordB :: map Ch (txt "error.").
Definition pat_paren : regex := map Ch (txt "(error)").
Definition pat_second : regex := map Ch (txt ", error)").
Definition pat_throw : regex := map Ch (txt "throw error;").
Definition pat_return : regex := map Ch (txt "return error;").

(** ** The brace scan

    [for j, char in enumerate(part)] with [brace_count] and [end_pos]:
    [end_pos] stays 0 unless a closing brace brings the count to 0. *)
Fixpoint brace_go (brace_count : Z) (j : nat) (part : text) : nat :=
  match part with
  | [] => 0
  | c :: part' =>
      if N.eqb c (chr "{") then brace_go (brace_count + 1) (S j) part'
      else if N.eqb c (chr "}") then
        if Z.eqb (brace_count - 1) 0 then j
        else brace_go (brace_count - 1) (S j) part'
      else brace_go brace_count (S j) part'
  end.

Definition find_end (part : text) : nat := brace_go 1 0 part.

(** ** The five substitutions on a catch body *)
Definition fix_body (catch_body : text) : text :=
  let fixed_body := re_sub pat_member (txt "_error.") catch_body in
  let fixed_body := re_sub pat_paren (txt "(_error)") fixed_body in
  let fixed_body := re_sub pat_second (txt ", _error)") fixed_body in
  let fixed_body := re_sub pat_throw (txt "throw _error;") fixed_body in
  let fixed_body := re_sub pat_return (txt "return _error;") fixed_body in
  fixed_body.

(** ** Reassembly *)

(** The text the script appends for every header. *)
Definition header : text := txt "catch (_error) {".

(** One turn of [for i in range(1, len(parts))]: the state is [result] and
    [changes_made]. *)
Definition loop_step (st : list text * Z) (part : text) : list text * Z :=
  let '(result, changes_made) := st in
  let end_pos := find_end part in
  if Nat.ltb 0 end_pos then
    let catch_body := firstn end_pos part in
    let rest := skipn end_pos part in
    let fixed_body := fix_body catch_body in
    let changes_made :=
      if negb (text_eqb fixed_body catch_body)
      then (changes_made + 1)%Z else changes_made in
    (result ++ [header; fixed_body; rest], changes_made)
  else
    (result ++ [header; part], changes_made).

(** The part of [fix_error_references] between reading and writing: the new
    [content] and [changes_made]. *)
Definition rewrite (content : text) : text * Z :=
  let parts := re_split catch_pattern content in
  if Nat.ltb 1 (length parts) then
    let '(result, changes_made) :=
      fold_left loop_step (tl parts) ([hd [] parts], 0%Z) in
    (concat result, changes_made)
  else (content, 0%Z).

(** ** Files

    [open(...).read()] and [open(..., 'w').write(content)] on a store of
    files; reading a missing file raises, which is [None] here.  The store
    holds a file as [read()] gives it: the file is opened in text mode, so
    its line ends have been translated already. *)
Definition path := string.
Definition files := path -> option text.

Definition write_file (fs : files) (p : path) (c : text) : files :=
  fun q => if String.eqb q p then Some c else fs q.

Definition fix_error_references (fs : files) (file_path : path)
  : option (files * Z) :=
  match fs file_path with
  | None => None
  | Some content =>
      let original_content := content in
      let '(content, changes_made) := rewrite original_content in
      if negb (text_eqb content original_content)
      then Some (write_file fs file_path content, changes_made)
      else Some (fs, 0%Z)
  end.

(** [main]: the paths that [extension_dir.rglob('*.js')] yields are the
    parameter [js_files]; the state is the store, [total_changes] and
    [files_changed]; the two [print] calls are left out. *)
Definition main_step (st : option (files * Z * Z)) (js_file : path)
  : option (files * Z * Z) :=
  match st with
  | None => None
  | Some (fs, total_changes, files_changed) =>
      match fix_error_references fs js_file with
      | None => None
      | Some (fs', changes) =>
          if Z.ltb 0 changes
          then Some (fs', (total_changes + changes)%Z, (files_changed + 1)%Z)
          else Some (fs', total_changes, files_changed)
      end
  end.

Definition main (fs : files) (js_files : list path)
  : option (files * Z * Z) :=
  fold_left main_step js_files (Some (fs, 0%Z, 0%Z)).

End Regex.

(** * create_icons.py: the icons of the extension

    [create_bookmark_icon] computes the coordinates of five shapes from the
    size of the icon and hands them to the drawing functions of the image
    library.  The library is not part of the repository: an image is the
    arguments it was created with and the shapes drawn on it, in the order
    of the calls.  Coordinates are Python integers, [//] is floor
    division. *)

Module Icons.

#[local] Open Scope Z_scope.

(** A colour as the script writes it, a tuple of three or four numbers. *)
Definition color := list Z.

(** The calls on the [ImageDraw.Draw] object. *)
Inductive shape :=
| rounded_rectangle (xy : list Z) (radius : Z) (fill : color)
| polygon (xy : list (Z * Z)) (fill : color)
| rectangle (xy : list Z) (fill : color).

Record image := {
  im_mode : string;
  im_size : Z * Z;
  im_color : color;
  im_shapes : list shape
}.

(** [Image.new(mode, size, color)] *)
Definition Image_new (mode : string) (size : Z * Z) (c : color) : image :=
  {| im_mode := mode; im_size := size; im_color := c; im_shapes := [] |}.

(** A call on [draw = ImageDraw.Draw(img)] draws on [img]. *)
Definition draw (img : image) (s : shape) : image :=
  {| im_mode := im_mode img; im_size := im_size img;
     im_color := im_color img; im_shapes := im_shapes img ++ [s] |}.

Definition create_bookmark_icon (size : Z) : image :=
  let img := Image_new "RGBA" (size, size) [0; 0; 0; 0] in
  let margin := size / 8 in
  let width := size - 2 * margin in
  let height := size - 2 * margin in
  let bookmark_color := [26; 115; 232] in
  let img :=
    draw img (rounded_rectangle
                [margin; margin; margin + width; margin + height]
                (size / 16) bookmark_color) in
  let fold_size := size / 6 in
  let fold_points :=
    [(margin + width - fold_size, margin);
     (margin + width, margin);
     (margin + width, margin + fold_size)] in
  let img := draw img (polygon fold_points [255; 255; 255; 100]) in
  let line_color := [255; 255; 255; 200] in
  let line_width := Z.max 1 (size / 32) in
  let line_margin := margin + size / 8 in
  let line_spacing := size / 8 in
  fold_left
    (fun img i =>
       let y := margin + size / 4 + i * line_spacing in
       let line_end :=
         if Z.eqb i 2 then margin + width - size / 6
         else margin + width - size / 8 in
       draw img (rectangle [line_margin; y; line_end; y + line_width]
                   line_color))
    [0; 1; 2] img.

(** [str(n)] for an integer, as an f-string formats it: decimal digits, a
    minus sign before a negative number. *)
Definition str (n : Z) : string :=
  DecimalString.NilZero.string_of_int (Z.to_int n).

(** The files [icon.save(filename, 'PNG')] writes: a name holds the image
    that was saved under it. *)
Definition icon_files := string -> option image.

Definition save (fs : icon_files) (filename : string) (icon : image)
  : icon_files :=
  fun q => if String.eqb q filename then Some icon else fs q.

Definition sizes : list Z := [16; 48; 128].

(** [main]: the [print] calls are left out. *)
Definition main (fs : icon_files) : icon_files :=
  fold_left
    (fun fs size =>
       let icon := create_bookmark_icon size in
       let filename := ("icon" ++ str size ++ ".png")%string in
       save fs filename icon)
    sizes fs.

(** ** Notions for the statements *)

(** The name [f'icon{size}.png']. *)
Definition icon_filename (size : Z) : string :=
  ("icon" ++ str size ++ ".png")%string.

(** The points a shape is given by. *)
Definition points (s : shape) : list (Z * Z) :=
  match s with
  | rounded_rectangle [x0; y0; x1; y1] _ _ => [(x0, y0); (x1, y1)]
  | rectangle [x0; y0; x1; y1] _ => [(x0, y0); (x1, y1)]
  | polygon xy _ => xy
  | _ => []
  end.

(** [within lo hi s]: the shape lies in the square from [lo] to [hi]. *)
Definition within (lo hi : Z) (s : shape) : Prop :=
  Forall (fun pt => lo <= fst pt <= hi /\ lo <= snd pt <= hi) (points s).

(** A box [[x0, y0, x1, y1]] with [x0 <= x1] and [y0 <= y1]. *)
Definition ordered (s : shape) : Prop :=
  match s with
  | rounded_rectangle [x0; y0; x1; y1] _ _ => x0 <= x1 /\ y0 <= y1
  | rectangle [x0; y0; x1; y1] _ => x0 <= x1 /\ y0 <= y1
  | rounded_rectangle _ _ _ => False
  | rectangle _ _ => False
  | polygon _ _ => True
  end.

(** The first and the last row of a rectangle. *)
Definition rows (s : shape) : list (Z * Z) :=
  match s with
  | rectangle [_; y0; _; y1] _ => [(y0, y1)]
  | _ => []
  end.

(** The rows of the lines that stand for text, in the order drawn. *)
Definition text_rows (img : image) : list (Z * Z) :=
  flat_map rows (im_shapes img).

End Icons.

(** * Notions for the statements

    Nothing below is code of the script: these are the notions the
    properties are stated and proved with. *)

Section Notions.

Context {U : UnicodeTables}.

(** [starts l s]: the text [s] begins with [l]. *)
Fixpoint starts (l s : text) : bool :=
  match l, s with
  | [], _ => true
  | x :: l', c :: s' => N.eqb c x && starts l' s'
  | _ :: _, [] => false
  end.

(** The last character read, [prev] when nothing was read. *)
Fixpoint last_of (prev : option char) (u : text) : option char :=
  match u with
  | [] => prev
  | c :: u' => last_of (Some c) u'
  end.

(** The tokens spell the text. *)
Definition token_text (t : token) : text :=
  match t with
  | Plain c => [c]
  | Match m => m
  end.

(** The count after the loop has read [b] from the count [d], [None] when
    the loop stops inside [b]. *)
Fixpoint depth_after (d : Z) (b : text) : option Z :=
  match b with
  | [] => Some d
  | c :: b' =>
      if N.eqb c (chr "{") then depth_after (d + 1) b'
      else if N.eqb c (chr "}") then
        if Z.eqb (d - 1) 0 then None else depth_after (d - 1) b'
      else depth_after d b'
  end.

(** The change of the count over a text: opening minus closing braces. *)
Fixpoint net (s : text) : Z :=
  match s with
  | [] => 0
  | c :: s' =>
      (if N.eqb c (chr "{") then 1
       else if N.eqb c (chr "}") then -1 else 0) + net s'
  end.

(** Complete brace pairs, properly nested, from [n] pairs open. *)
Fixpoint bal (n : nat) (s : text) : bool :=
  match s with
  | [] => Nat.eqb n 0
  | c :: s' =>
      if N.eqb c (chr "{") then bal (S n) s'
      else if N.eqb c (chr "}") then
        match n with
        | O => false
        | S n' => bal n' s'
        end
      else bal n s'
  end.

Definition balanced (s : text) : bool := bal 0 s.

(** [thins t s]: [s] is [t] with some underscores taken out. *)
Inductive thins : text -> text -> Prop :=
| thins_nil : thins [] []
| thins_keep c t s : thins t s -> thins (c :: t) (c :: s)
| thins_drop t s : thins t s -> thins (chr "_" :: t) s.

Definition us_free (w : text) : bool :=
  forallb (fun c => negb (N.eqb c (chr "_"))) w.

(** A pattern that is a literal text, with [\b] before it or not. *)
Definition lit_regex (wb : bool) (l : text) : regex :=
  (if wb then [WordB] else []) ++ map Ch l.

Definition lit_match (wb : bool) (l : text) (prev : option char) (s : text)
  : bool :=
  starts l s && (if wb then at_boundary prev (hd_error s) else true).

(** Every rule puts an underscore before [error] in a fixed context:
    [before ++ "error" ++ after] becomes [before ++ "_error" ++ after]. *)
Record rule := { wb : bool; before : text; after : text }.

Definition lit (p : rule) : text := before p ++ txt "error" ++ after p.

Definition repl (p : rule) : text := before p ++ txt "_error" ++ after p.

Definition rule_sub (p : rule) (prev : option char) (s : text) : text :=
  sub_from (lit_regex (wb p) (lit p)) (repl p) prev s.

Definition hits (p : rule) (prev : option char) (s : text) : bool :=
  lit_match (wb p) (lit p) prev s.

Definition member : rule := {| wb := true; before := []; after := txt "." |}.

Definition paren : rule :=
  {| wb := false; before := txt "("; after := txt ")" |}.

Definition second : rule :=
  {| wb := false; before := txt ", "; after := txt ")" |}.

Definition throw : rule :=
  {| wb := false; before := txt "throw "; after := txt ";" |}.

Definition return_ : rule :=
  {| wb := false; before := txt "return "; after := txt ";" |}.

Definition wf (p : rule) : bool := us_free (before p) && us_free (after p).

(** The character before the text that follows a match. *)
Definition tail_char (p : rule) : option char := last_of None (lit p).

(** A text a rule leaves as it is. *)
Definition settled (p : rule) (prev : option char) (s : text) : Prop :=
  rule_sub p prev s = s.

(** [stable p w]: the rule [p] finds nothing that starts inside [w], whatever
    comes before and after. *)
Definition stable (p : rule) (w : text) : Prop :=
  forall prev x,
    rule_sub p prev (w ++ x) = w ++ rule_sub p (last_of prev w) x.

Definition rules : list rule := [member; paren; second; throw; return_].

(** [ends a s]: the text [s] ends with [a]. *)
Definition ends (a s : text) : bool := starts (rev a) (rev s).

(** [shape p prev pre post]: the [error] between [pre] and [post] stands in
    the context the rule [p] rewrites. *)
Definition shape (p : rule) (prev : option char) (pre post : text) : bool :=
  ends (before p) pre && starts (after p) post
  && (if wb p then at_boundary (last_of prev pre) (Some (chr "e"))
      else true).

Definition in_shape (pre post : text) : bool :=
  shape member None pre post || shape paren None pre post
  || shape second None pre post || shape throw None pre post
  || shape return_ None pre post.

Fixpoint wb_free (r : regex) : bool :=
  match r with
  | [] => true
  | WordB :: _ => false
  | _ :: r' => wb_free r'
  end.

(** [blocked r t]: no part of the pattern [r] that is still to match can
    go on into the text [t]. *)
Fixpoint blocked (r : regex) (t : text) : Prop :=
  match r with
  | [] => True
  | _ :: r' => (forall prev, match_here r prev t = None) /\ blocked r' t
  end.

(** [apart r t]: what the pattern [r] finds before [t] does not depend on
    [t]. *)
Definition apart (r : regex) (t : text) : Prop :=
  forall v prev, v <> [] -> match_here r prev (v ++ t) = match_here r prev v.

Definition spell (toks : list token) : text := concat (map token_text toks).

Definition toks (s : text) : list token := scan catch_pattern None s.

(** A text in which the header pattern has no match. *)
Definition clean (g : text) : Prop := re_split catch_pattern g = [g].

Definition fix_piece (part : text) : text :=
  let end_pos := find_end part in
  if Nat.ltb 0 end_pos
  then fix_body (firstn end_pos part) ++ skipn end_pos part
  else part.

Definition piece_changed (part : text) : bool :=
  let end_pos := find_end part in
  Nat.ltb 0 end_pos
  && negb (text_eqb (fix_body (firstn end_pos part)) (firstn end_pos part)).

(** A document as the script cuts it: text it leaves alone, headers, and
    the bodies it hands to the rules. *)
Inductive segment :=
| Outside (t : text)
| Header (h : text)
| Body (b : text).

Definition seg_src (s : segment) : text :=
  match s with
  | Outside t => t
  | Header h => h
  | Body b => b
  end.

(** What the script writes for a segment. *)
Definition seg_out (s : segment) : text :=
  match s with
  | Outside t => t
  | Header _ => header
  | Body b => fix_body b
  end.

(** What the specification says is written: the header as it stands. *)
Definition seg_frame (s : segment) : text :=
  match s with
  | Outside t => t
  | Header h => h
  | Body b => fix_body b
  end.

Definition src_text (l : list segment) : text := concat (map seg_src l).

Definition out_text (l : list segment) : text := concat (map seg_out l).

Definition frame_text (l : list segment) : text := concat (map seg_frame l).

(** A header as it stands in the text, with the piece that follows it up to
    the next header. *)
Definition blocks (content : text) : list (text * text) :=
  combine (re_findall catch_pattern content)
          (tl (re_split catch_pattern content)).

Definition piece_segments (hp : text * text) : list segment :=
  let end_pos := find_end (snd hp) in
  if Nat.ltb 0 end_pos
  then [Header (fst hp); Body (firstn end_pos (snd hp));
        Outside (skipn end_pos (snd hp))]
  else [Header (fst hp); Outside (snd hp)].

Definition segments (content : text) : list segment :=
  Outside (hd [] (re_split catch_pattern content))
  :: concat (map piece_segments (blocks content)).

(** [inside f q]: the text [q] stands in [f], at the start of [f] or after
    a character that is no word character. *)
Definition inside (f q : text) : Prop :=
  exists u w, f = u ++ q ++ w /\ is_word_opt (last_of None u) = false.

(** A token that is no match or a match that ends with an opening brace. *)
Definition token_ok (t : token) : Prop :=
  match t with
  | Plain _ => True
  | Match m => last_of None m = Some (chr "{")
  end.

(** A rule in the specification's words, without a pattern matcher: from
    left to right, every occurrence of the literal [l] (one that begins at
    a word boundary when [wb] is set) is replaced by [r], and the search
    goes on after the occurrence.  [skip] counts the characters of the
    occurrence still to pass. *)
Fixpoint replace_go (wb : bool) (l r : text) (prev : option char)
    (skip : nat) (s : text) : text :=
  match s with
  | [] => []
  | c :: s' =>
      match skip with
      | S k => replace_go wb l r (Some c) k s'
      | O =>
          if lit_match wb l prev s
          then r ++ replace_go wb l r (Some c) (length l - 1) s'
          else c :: replace_go wb l r (Some c) 0 s'
      end
  end.

Definition replace_all (wb : bool) (l r : text) (s : text) : text :=
  replace_go wb l r None 0 s.

Definition one_file (p : path) (c : text) : files :=
  fun q => if String.eqb q p then Some c else None.

(** Scenario A of the specification. *)
Definition doc_a : text :=
  txt "catch (_error) { console.log(error.message); }".

(** References to [error] before, inside and after a block. *)
Definition doc_scope : text :=
  txt "log(error.message); catch (_error) { log(error.message); } throw error;".

(** A header written without blanks, and a body the rules leave alone. *)
Definition doc_compact : text := txt "catch(_error){ }".

(** Scenario D, and a complete block followed by a block without end. *)
Definition doc_open : text :=
  txt "catch (_error) { console.log(error.message);".

Definition doc_half_open : text :=
  txt "catch (_error) { a(error.m); } catch (_error) { b(error.m);".

(** Scenario B with a reference to [error] in the outer body. *)
Definition doc_nested_ref : text :=
  txt "catch (_error) { log(error.message); try { doX(); } catch (_error) { throw error; } }".

(** A block that holds a handler bound to [error], written without
    blanks, and one written with them. *)
Definition doc_new_header : text := txt "catch (_error) {catch(error){}}".

Definition doc_bound : text := txt "catch (_error) {catch (error) {}}".

(** A store of two files, and the list of their names. *)
Definition two_files : files :=
  fun q =>
    if String.eqb q "b.js" then Some doc_compact
    else if String.eqb q "a.js" then Some doc_a
    else None.

Definition two_names : list path := ["a.js"; "b.js"]%string.

(** The store after a run over the two files. *)
Definition two_files_after : files :=
  write_file
    (write_file two_files "a.js"%string
       (txt "catch (_error) { console.log(_error.message); }"))
    "b.js"%string (txt "catch (_error) { }").

(** The number of underscores of a text. *)
Definition underscores (t : text) : nat :=
  length (filter (N.eqb (chr "_")) t).

(** A text without its blanks and underscores. *)
Definition squash (t : text) : text :=
  filter (fun c => negb (is_space c || N.eqb c (chr "_"))) t.

(** The literal characters of a pattern. *)
Definition lits (r : regex) : text :=
  flat_map (fun a => match a with Ch c => [c] | _ => [] end) r.

(** [inserts t s]: [t] is [s] with underscores put in, each at a place where
    [error] follows in [s]. *)
Inductive inserts : text -> text -> Prop :=
| inserts_nil : inserts [] []
| inserts_keep c t s : inserts t s -> inserts (c :: t) (c :: s)
| inserts_mark t s :
    inserts t s -> starts (txt "error") s = true ->
    inserts (chr "_" :: t) s.

(** The run of [main] from a state of its loop. *)
Definition run (st : option (files * Z * Z)) (js_files : list path)
  : option (files * Z * Z) :=
  fold_left main_step js_files st.

(** What [changes_made] is for the file at a path. *)
Definition count_of (fs : files) (q : path) : Z :=
  match fs q with
  | Some c => snd (rewrite c)
  | None => 0%Z
  end.

Definition total (fs : files) (js_files : list path) : Z :=
  fold_right Z.add 0%Z (map (count_of fs) js_files).

Definition changed_files (fs : files) (js_files : list path) : nat :=
  length (filter (fun q => Z.ltb 0 (count_of fs q)) js_files).

(** A file that holds a text the script wrote, and a file that holds a
    text the script leaves as it is. *)
Definition passed (fs : files) (q : path) : Prop :=
  exists c0, fs q = Some (fst (rewrite c0)).

Definition fixed (fs : files) (q : path) : Prop :=
  exists c, fs q = Some c /\ rewrite c = (c, 0%Z).

(** The store in which the files of the list hold their new text. *)
Definition rewritten (fs : files) (js_files : list path) : files :=
  fun q =>
    if existsb (String.eqb q) js_files
    then option_map (fun c => fst (rewrite c)) (fs q)
    else fs q.

End Notions.

Arguments one_file p%_string c.
Arguments write_file fs p%_string c.
Arguments fix_error_references {U} fs file_path%_string.

(** * Properties *)

(** ** Texts *)

Lemma text_eqb_refl (a : text) : text_eqb a a = true.
Proof.
  induction a as [|x a IH]; simpl; [reflexivity|].
  now rewrite N.eqb_refl.
Qed.

Lemma text_eqb_eq (a b : text) : text_eqb a b = true <-> a = b.
Proof.
  split.
  - revert b; induction a as [|x a IH]; intros [|y b] H; simpl in H;
      try discriminate; [reflexivity|].
    apply andb_prop in H as [Hx Hab].
    apply N.eqb_eq in Hx. f_equal; [assumption | now apply IH].
  - intros ->. apply text_eqb_refl.
Qed.

Lemma text_eqb_neq (a b : text) : text_eqb a b = false <-> a <> b.
Proof.
  split.
  - intros H E. apply text_eqb_eq in E. congruence.
  - intros H. destruct (text_eqb a b) eqn:E; [|reflexivity].
    apply text_eqb_eq in E. contradiction.
Qed.

Lemma starts_app (l t : text) : starts l (l ++ t) = true.
Proof.
  induction l as [|x l IH]; simpl; [reflexivity|].
  now rewrite N.eqb_refl.
Qed.

Lemma starts_inv (l s : text) :
  starts l s = true -> exists t, s = l ++ t.
Proof.
  revert s; induction l as [|x l IH]; intros s H.
  - now exists s.
  - destruct s as [|c s]; simpl in H; [discriminate|].
    apply andb_prop in H as [Hc Hs]. apply N.eqb_eq in Hc. subst c.
    destruct (IH _ Hs) as [t ->]. now exists t.
Qed.

Lemma starts_weaken (l u v : text) :
  starts l u = true -> starts l (u ++ v) = true.
Proof.
  intros H. destruct (starts_inv _ _ H) as [t ->].
  rewrite <- app_assoc. apply starts_app.
Qed.

Lemma last_of_app (prev : option char) (u v : text) :
  last_of prev (u ++ v) = last_of (last_of prev u) v.
Proof.
  revert prev; induction u as [|c u IH]; intros prev; simpl; auto.
Qed.

Lemma last_of_cons (prev prev' : option char) (c : char) (u : text) :
  last_of prev (c :: u) = last_of prev' (c :: u).
Proof. reflexivity. Qed.

Section Engine.

Context {U : UnicodeTables}.

(** ** The matcher *)

(** The patterns are the ones the script writes. *)
Lemma patterns_as_written :
  compile "catch\s*\(\s*_error\s*\)\s*\{" = Some catch_pattern
  /\ compile "\berror\." = Some pat_member
  /\ compile "\(error\)" = Some pat_paren
  /\ compile ", error\)" = Some pat_second
  /\ compile "throw error;" = Some pat_throw
  /\ compile "return error;" = Some pat_return.
Proof. repeat split. Qed.

Lemma match_here_le (r : regex) :
  forall prev s n, match_here r prev s = Some n -> n <= length s.
Proof.
  induction r as [|a r IH]; intros prev s n H.
  - simpl in H. injection H as <-. lia.
  - destruct a as [c| |].
    + destruct s as [|x s]; simpl in H; [discriminate|].
      destruct (N.eqb x c); [|discriminate].
      destruct (match_here r (Some x) s) as [m|] eqn:E; [|discriminate].
      injection H as <-. apply IH in E. simpl. lia.
    + revert prev n H.
      induction s as [|x s IHs]; intros prev n H.
      * simpl in H. now apply IH in H.
      * simpl in H. destruct (is_space x).
        -- match type of H with
           | match ?t with _ => _ end = _ => destruct t as [m|] eqn:E
           end.
           ++ injection H as <-. apply IHs in E. simpl. lia.
           ++ now apply IH in H.
        -- now apply IH in H.
    + simpl in H. destruct (at_boundary prev (hd_error s)); [|discriminate].
      now apply IH in H.
Qed.

(** A pattern of literal characters matches exactly the texts that start
    with them. *)
Lemma match_here_chars (l : text) :
  forall prev s,
    match_here (map Ch l) prev s = if starts l s then Some (length l) else None.
Proof.
  induction l as [|x l IH]; intros prev s; simpl; [reflexivity|].
  destruct s as [|c s]; [reflexivity|].
  destruct (N.eqb c x); simpl; [|reflexivity].
  rewrite IH. now destruct (starts l s).
Qed.

(** ** The scan *)

Lemma scan_go_skip (r : regex) :
  forall s k prev,
    k <= length s ->
    scan_go r prev k s = scan r (last_of prev (firstn k s)) (skipn k s).
Proof.
  induction s as [|c s IH]; intros k prev Hk.
  - simpl in Hk. assert (k = 0) by lia. subst. reflexivity.
  - destruct k as [|k]; [reflexivity|].
    simpl in Hk. simpl. apply IH. lia.
Qed.

Lemma scan_nil (r : regex) (prev : option char) : scan r prev [] = [].
Proof. reflexivity. Qed.

Lemma scan_match (r : regex) (prev : option char) (m s : text) :
  m <> [] ->
  match_here r prev (m ++ s) = Some (length m) ->
  scan r prev (m ++ s) = Match m :: scan r (last_of prev m) s.
Proof.
  intros Hm H. destruct m as [|c m]; [contradiction|].
  assert (Hf : firstn (length m) (m ++ s) = m)
    by (rewrite firstn_app, Nat.sub_diag, firstn_all; simpl; apply app_nil_r).
  assert (Hs : skipn (length m) (m ++ s) = s)
    by (rewrite skipn_app, Nat.sub_diag, skipn_all; reflexivity).
  unfold scan. change ((c :: m) ++ s) with (c :: (m ++ s)) in *.
  cbn [scan_go]. rewrite H. cbn [length firstn].
  rewrite scan_go_skip by (rewrite length_app; lia).
  now rewrite Hf, Hs.
Qed.

Lemma scan_plain (r : regex) (prev : option char) (c : char) (s : text) :
  match_here r prev (c :: s) = None ->
  scan r prev (c :: s) = Plain c :: scan r (Some c) s.
Proof. intros H. unfold scan. simpl. now rewrite H. Qed.

(** The two cases of a scan step, for a pattern that matches no empty
    text. *)
Lemma scan_cases (r : regex) (prev : option char) (c : char) (s : text) :
  match_here r prev (c :: s) <> Some 0 ->
  (match_here r prev (c :: s) = None /\
   scan r prev (c :: s) = Plain c :: scan r (Some c) s)
  \/ (exists m t, m <> [] /\ c :: s = m ++ t /\
       match_here r prev (c :: s) = Some (length m) /\
       scan r prev (c :: s) = Match m :: scan r (last_of prev m) t).
Proof.
  intros H0. destruct (match_here r prev (c :: s)) as [[|k]|] eqn:E.
  - congruence.
  - right. pose proof (match_here_le _ _ _ _ E) as Hle.
    exists (firstn (S k) (c :: s)), (skipn (S k) (c :: s)).
    assert (Hlen : length (firstn (S k) (c :: s)) = S k)
      by (rewrite length_firstn; lia).
    repeat split.
    + simpl. discriminate.
    + now rewrite firstn_skipn.
    + now rewrite Hlen.
    + rewrite <- (firstn_skipn (S k) (c :: s)) at 1.
      apply scan_match; [simpl; discriminate|].
      now rewrite firstn_skipn, Hlen.
  - left. split; [reflexivity|]. now apply scan_plain.
Qed.

Lemma scan_go_spells (r : regex) :
  forall s k prev,
    k <= length s ->
    concat (map token_text (scan_go r prev k s)) = skipn k s.
Proof.
  induction s as [|c s IH]; intros k prev Hk.
  - simpl in Hk. assert (k = 0) by lia. now subst.
  - destruct k as [|k].
    + simpl scan_go. destruct (match_here r prev (c :: s)) as [[|j]|] eqn:E.
      * simpl. f_equal. now rewrite IH by lia.
      * apply match_here_le in E. simpl in E.
        simpl map. simpl concat. rewrite IH by lia.
        change (c :: firstn j s ++ skipn j s = c :: s).
        now rewrite firstn_skipn.
      * simpl. f_equal. now rewrite IH by lia.
    + simpl in Hk. simpl. apply IH. lia.
Qed.

Lemma scan_spells (r : regex) (prev : option char) (s : text) :
  concat (map token_text (scan r prev s)) = s.
Proof. unfold scan. now rewrite scan_go_spells by lia. Qed.

End Engine.

(** ** The brace scan *)

Lemma brace_go_app (b r : text) :
  forall d d' j,
    depth_after d b = Some d' ->
    brace_go d j (b ++ r) = brace_go d' (j + length b) r.
Proof.
  induction b as [|c b IH]; intros d d' j H; simpl in *.
  - injection H as <-. f_equal. lia.
  - replace (j + S (length b)) with (S j + length b) by lia.
    destruct (N.eqb c (chr "{")); [now apply IH|].
    destruct (N.eqb c (chr "}")); [|now apply IH].
    destruct (Z.eqb (d - 1) 0); [discriminate | now apply IH].
Qed.

Lemma brace_go_open (b : text) (d d' : Z) (j : nat) :
  depth_after d b = Some d' -> brace_go d j b = 0.
Proof.
  intros H. rewrite <- (app_nil_r b). now rewrite (brace_go_app b [] d d' j H).
Qed.

Lemma brace_go_close (b r : text) (d : Z) (j : nat) :
  depth_after d b = Some 1%Z ->
  brace_go d j (b ++ chr "}" :: r) = j + length b.
Proof.
  intros H. rewrite (brace_go_app b _ d 1%Z j H). reflexivity.
Qed.

Lemma brace_go_found (p : text) :
  forall d j e,
    brace_go d j p = e -> 0 < e ->
    exists b r, p = b ++ chr "}" :: r /\ j + length b = e
                /\ depth_after d b = Some 1%Z.
Proof.
  induction p as [|c p IH]; intros d j e H He; simpl in H; [lia|].
  destruct (N.eqb c (chr "{")) eqn:Eo.
  - destruct (IH _ _ _ H He) as (b & r & -> & Hl & Hd).
    exists (c :: b), r. simpl. rewrite Eo. repeat split; [lia | assumption].
  - destruct (N.eqb c (chr "}")) eqn:Ec.
    + destruct (Z.eqb (d - 1) 0) eqn:Ez.
      * apply N.eqb_eq in Ec. apply Z.eqb_eq in Ez. subst c.
        exists [], p. simpl. repeat split; [lia | f_equal; lia].
      * destruct (IH _ _ _ H He) as (b & r & -> & Hl & Hd).
        exists (c :: b), r. simpl. rewrite Eo, Ec, Ez.
        repeat split; [lia | assumption].
    + destruct (IH _ _ _ H He) as (b & r & -> & Hl & Hd).
      exists (c :: b), r. simpl. rewrite Eo, Ec.
      repeat split; [lia | assumption].
Qed.

Lemma find_end_found (p : text) :
  0 < find_end p ->
  exists b r, p = b ++ chr "}" :: r /\ length b = find_end p
              /\ b <> [] /\ depth_after 1 b = Some 1%Z.
Proof.
  unfold find_end. intros He.
  destruct (brace_go_found p 1 0 _ eq_refl He) as (b & r & Hp & Hl & Hd).
  simpl in Hl. exists b, r. split; [assumption|]. split; [assumption|].
  split; [|assumption]. intros ->. simpl in Hl. lia.
Qed.

Lemma depth_after_net (b : text) :
  forall d,
    (forall k, k < length b -> (d + net (firstn (S k) b) <> 0)%Z) ->
    depth_after d b = Some (d + net b)%Z.
Proof.
  induction b as [|c b IH]; intros d H; simpl.
  - f_equal. lia.
  - pose proof (H 0 ltac:(simpl; lia)) as H0. simpl in H0.
    assert (Hrest : forall e, (e = d + (if N.eqb c (chr "{") then 1
                     else if N.eqb c (chr "}") then -1 else 0))%Z ->
              depth_after e b = Some (e + net b)%Z).
    { intros e ->. apply IH. intros k Hk.
      specialize (H (S k) ltac:(simpl; lia)).
      change (firstn (S (S k)) (c :: b)) with (c :: firstn (S k) b) in H.
      cbn [net] in H. lia. }
    destruct (N.eqb c (chr "{")).
    + rewrite (Hrest (d + 1)%Z eq_refl). f_equal; lia.
    + destruct (N.eqb c (chr "}")).
      * destruct (Z.eqb (d - 1) 0) eqn:Ez; [apply Z.eqb_eq in Ez; lia|].
        rewrite (Hrest (d - 1)%Z) by lia. f_equal; lia.
      * rewrite (Hrest d) by lia. f_equal; lia.
Qed.

Lemma bal_depth (s : text) :
  forall n d,
    bal n s = true -> (0 < d)%Z ->
    depth_after (d + Z.of_nat n) s = Some d.
Proof.
  induction s as [|c s IH]; intros n d H Hd; simpl in *.
  - apply Nat.eqb_eq in H. subst. f_equal. lia.
  - destruct (N.eqb c (chr "{")).
    + replace (d + Z.of_nat n + 1)%Z with (d + Z.of_nat (S n))%Z by lia.
      now apply IH.
    + destruct (N.eqb c (chr "}")); [|now apply IH].
      destruct n as [|n]; [discriminate|].
      destruct (Z.eqb (d + Z.of_nat (S n) - 1) 0) eqn:Ez;
        [apply Z.eqb_eq in Ez; lia|].
      replace (d + Z.of_nat (S n) - 1)%Z with (d + Z.of_nat n)%Z by lia.
      now apply IH.
Qed.

(** ** Texts that differ by underscores only *)

#[local] Hint Constructors thins : core.

Lemma thins_refl (s : text) : thins s s.
Proof. induction s; auto. Qed.

Lemma thins_app (t1 s1 t2 s2 : text) :
  thins t1 s1 -> thins t2 s2 -> thins (t1 ++ t2) (s1 ++ s2).
Proof. induction 1; intros; simpl; auto. Qed.

Lemma thins_trans (t u s : text) : thins t u -> thins u s -> thins t s.
Proof.
  intros H; revert s; induction H; intros s' H2; auto.
  inversion H2; subst; auto.
Qed.

Lemma thins_length (t s : text) : thins t s -> length s <= length t.
Proof. induction 1; simpl; lia. Qed.

Lemma thins_starts (t s : text) :
  thins t s ->
  forall w, us_free w = true -> starts w t = true -> starts w s = true.
Proof.
  induction 1 as [|c t s H IH|t s H IH]; intros w Hw Hs.
  - destruct w; [reflexivity | discriminate].
  - destruct w as [|x w]; [reflexivity|].
    unfold us_free in Hw. cbn [starts forallb] in *.
    apply andb_prop in Hw as [_ Hw]. apply andb_prop in Hs as [Hc Hs].
    rewrite Hc. simpl. now apply IH.
  - destruct w as [|x w]; [reflexivity|].
    unfold us_free in Hw. cbn [starts forallb] in *.
    apply andb_prop in Hw as [Hx _]. apply andb_prop in Hs as [Hc _].
    apply N.eqb_eq in Hc. subst x. rewrite N.eqb_refl in Hx. discriminate.
Qed.

Lemma thins_us_free (t s : text) : thins t s -> us_free t = true -> t = s.
Proof.
  induction 1 as [|c t s H IH|t s H IH]; intros Hf;
    unfold us_free in Hf; cbn [forallb] in Hf.
  - reflexivity.
  - apply andb_prop in Hf as [_ Hf]. f_equal. now apply IH.
  - rewrite N.eqb_refl in Hf. discriminate.
Qed.

Lemma thins_ends (t s : text) :
  thins t s ->
  forall t0 a, us_free a = true -> t = t0 ++ a ->
    exists s0, s = s0 ++ a /\ thins t0 s0.
Proof.
  induction 1 as [|c t s H IH|t s H IH]; intros t0 a Ha E.
  - symmetry in E. apply app_eq_nil in E as [-> ->]. exists []. auto.
  - destruct t0 as [|x t0]; simpl in E.
    + subst a. exists []. split; [|auto]. simpl.
      symmetry. apply thins_us_free; [auto | assumption].
    + injection E as <- ->.
      destruct (IH t0 a Ha eq_refl) as (s0 & -> & Hs0).
      exists (c :: s0). auto.
  - destruct t0 as [|x t0]; simpl in E.
    + subst a. unfold us_free in Ha. cbn [forallb] in Ha.
      rewrite N.eqb_refl in Ha. discriminate.
    + injection E as <- ->.
      destruct (IH t0 a Ha eq_refl) as (s0 & -> & Hs0).
      exists s0. auto.
Qed.

Lemma thins_depth (t s : text) :
  thins t s -> forall d, depth_after d t = depth_after d s.
Proof.
  induction 1 as [|c t s H IH|t s H IH]; intros d; cbn [depth_after].
  - reflexivity.
  - now rewrite !IH.
  - change (N.eqb (chr "_") (chr "{")) with false.
    change (N.eqb (chr "_") (chr "}")) with false. apply IH.
Qed.

Lemma text_len_ind (P : text -> Prop) :
  (forall s, (forall t, length t < length s -> P t) -> P s) ->
  forall s, P s.
Proof.
  intros H s. remember (length s) as n eqn:En.
  revert s En. induction n as [n IH] using lt_wf_ind.
  intros s ->. apply H. intros t Ht. now apply (IH (length t)).
Qed.

Lemma starts_long (l u v : text) :
  length l <= length u -> starts l (u ++ v) = starts l u.
Proof.
  revert u; induction l as [|x l IH]; intros u Hl; [reflexivity|].
  destruct u as [|c u]; simpl in Hl; [lia|].
  cbn [app starts]. rewrite IH by lia. reflexivity.
Qed.

Lemma starts_us (l u v : text) :
  us_free l = true -> starts l (u ++ chr "_" :: v) = starts l u.
Proof.
  revert u; induction l as [|x l IH]; intros u Hl; [reflexivity|].
  unfold us_free in Hl. cbn [forallb] in Hl.
  apply andb_prop in Hl as [Hx Hl].
  destruct u as [|c u]; cbn [app starts].
  - rewrite N.eqb_sym. now destruct (N.eqb x (chr "_")).
  - now rewrite IH.
Qed.

(** ** The five rules as literal patterns *)

Section Rules.

Context {U : UnicodeTables}.

Lemma match_here_lit (wb : bool) (l : text) (prev : option char) (s : text) :
  match_here (lit_regex wb l) prev s =
  if lit_match wb l prev s then Some (length l) else None.
Proof.
  unfold lit_regex, lit_match. destruct wb; cbn [app match_here].
  - rewrite match_here_chars.
    destruct (at_boundary prev (hd_error s)), (starts l s); reflexivity.
  - rewrite match_here_chars. now destruct (starts l s).
Qed.

Lemma fix_body_rules (b : text) :
  fix_body b =
  rule_sub return_ None
    (rule_sub throw None
       (rule_sub second None (rule_sub paren None (rule_sub member None b)))).
Proof. reflexivity. Qed.

Lemma lit_us_free (p : rule) : wf p = true -> us_free (lit p) = true.
Proof.
  unfold wf, lit, us_free. intros H. apply andb_prop in H as [Hb Ha].
  rewrite !forallb_app. apply andb_true_intro. split; [exact Hb|].
  apply andb_true_intro. split; [reflexivity | exact Ha].
Qed.

Lemma lit_not_nil (p : rule) : lit p <> [].
Proof.
  unfold lit. intros E. apply app_eq_nil in E as [_ E]. discriminate.
Qed.

Lemma last_of_lit (p : rule) (prev : option char) :
  last_of prev (lit p) = tail_char p.
Proof.
  unfold tail_char, lit. now rewrite !last_of_app.
Qed.

Lemma last_of_repl (p : rule) (prev : option char) :
  last_of prev (repl p) = tail_char p.
Proof.
  unfold tail_char, lit, repl. now rewrite !last_of_app.
Qed.

Lemma rule_sub_nil (p : rule) (prev : option char) : rule_sub p prev [] = [].
Proof. reflexivity. Qed.

Lemma rule_sub_miss (p : rule) (prev : option char) (c : char) (s : text) :
  hits p prev (c :: s) = false ->
  rule_sub p prev (c :: s) = c :: rule_sub p (Some c) s.
Proof.
  intros H. unfold rule_sub, sub_from.
  rewrite scan_plain; [reflexivity|].
  rewrite match_here_lit. unfold hits in H. now rewrite H.
Qed.

Lemma rule_sub_hit (p : rule) (prev : option char) (s : text) :
  hits p prev (lit p ++ s) = true ->
  rule_sub p prev (lit p ++ s) = repl p ++ rule_sub p (tail_char p) s.
Proof.
  intros H. unfold rule_sub, sub_from.
  rewrite scan_match.
  - cbn [map concat render]. now rewrite last_of_lit.
  - apply lit_not_nil.
  - rewrite match_here_lit. unfold hits in H. now rewrite H.
Qed.

Lemma hits_inv (p : rule) (prev : option char) (s : text) :
  hits p prev s = true -> exists t, s = lit p ++ t.
Proof.
  unfold hits, lit_match. intros H. apply andb_prop in H as [H _].
  now apply starts_inv.
Qed.

(** How a rule proceeds at the head of a text. *)
Lemma rule_sub_cases (p : rule) (prev : option char) (c : char) (s : text) :
  (hits p prev (c :: s) = false /\
   rule_sub p prev (c :: s) = c :: rule_sub p (Some c) s)
  \/ (exists t, c :: s = lit p ++ t /\ hits p prev (c :: s) = true /\
        rule_sub p prev (c :: s) = repl p ++ rule_sub p (tail_char p) t).
Proof.
  destruct (hits p prev (c :: s)) eqn:E.
  - right. destruct (hits_inv _ _ _ E) as [t Ht]. exists t.
    split; [assumption|]. split; [reflexivity|].
    rewrite Ht in *. now apply rule_sub_hit.
  - left. split; [reflexivity|]. now apply rule_sub_miss.
Qed.

Lemma hits_weaken (p : rule) (prev : option char) (c : char) (u v : text) :
  hits p prev (c :: u) = true -> hits p prev ((c :: u) ++ v) = true.
Proof.
  unfold hits, lit_match. intros H. apply andb_prop in H as [H1 H2].
  rewrite (starts_weaken _ _ _ H1). exact H2.
Qed.

(** The replacement is the literal with one underscore more. *)
Lemma repl_thins_lit (p : rule) : thins (repl p) (lit p).
Proof.
  unfold repl, lit. apply thins_app; [apply thins_refl|].
  apply thins_drop. apply thins_refl.
Qed.

Lemma rule_sub_thins (p : rule) :
  forall s prev, thins (rule_sub p prev s) s.
Proof.
  induction s as [s IH] using text_len_ind. intros prev.
  destruct s as [|c s]; [constructor|].
  destruct (rule_sub_cases p prev c s) as [[_ ->]|(t & Ht & _ & ->)].
  - constructor. apply IH. simpl. lia.
  - rewrite Ht. apply thins_app; [apply repl_thins_lit|].
    apply IH. rewrite Ht, length_app.
    pose proof (lit_not_nil p). destruct (lit p); [congruence | simpl; lia].
Qed.

Lemma repl_not_lit (p : rule) (x y : text) : repl p ++ x <> lit p ++ y.
Proof.
  unfold repl, lit. rewrite <- !app_assoc. intros E.
  apply app_inv_head in E. discriminate.
Qed.

Lemma hits_thins (p : rule) (prev : option char) (c : char) (t s : text) :
  wf p = true -> thins t s ->
  hits p prev (c :: t) = true -> hits p prev (c :: s) = true.
Proof.
  unfold hits, lit_match. intros Hwf Ht H.
  apply andb_prop in H as [H1 H2]. cbn [hd_error] in *. rewrite H2.
  rewrite (thins_starts (c :: t) (c :: s)); auto using thins_keep, lit_us_free.
Qed.

Lemma rule_sub_idem (p : rule) :
  wf p = true -> stable p (repl p) ->
  forall s prev, settled p prev (rule_sub p prev s).
Proof.
  intros Hwf Hst. unfold settled.
  induction s as [s IH] using text_len_ind. intros prev.
  destruct s as [|c s]; [reflexivity|].
  destruct (rule_sub_cases p prev c s) as [[Hm ->]|(t & Ht & _ & ->)].
  - rewrite rule_sub_miss.
    + f_equal. apply IH. simpl. lia.
    + destruct (hits p prev (c :: rule_sub p (Some c) s)) eqn:E;
        [|reflexivity].
      apply (hits_thins p prev c _ s Hwf (rule_sub_thins p s _)) in E.
      congruence.
  - rewrite Hst, last_of_repl. f_equal. apply IH.
    rewrite Ht, length_app.
    pose proof (lit_not_nil p). destruct (lit p); [congruence | simpl; lia].
Qed.

Lemma rule_sub_keeps_settled (p q : rule) :
  wf p = true -> wf q = true ->
  stable p (repl q) -> stable p (lit q) ->
  forall s prev, settled p prev s -> settled p prev (rule_sub q prev s).
Proof.
  intros Hp Hq HstR HstL. unfold settled.
  induction s as [s IH] using text_len_ind. intros prev Hs.
  destruct s as [|c s]; [reflexivity|].
  destruct (rule_sub_cases q prev c s) as [[Hm ->]|(t & Ht & _ & ->)].
  - destruct (rule_sub_cases p prev c s) as [[Hpm Hpe]|(t & Ht & _ & Hpe)].
    + rewrite Hpe in Hs. injection Hs as Hs.
      rewrite rule_sub_miss.
      * f_equal. apply IH; [simpl; lia | assumption].
      * destruct (hits p prev (c :: rule_sub q (Some c) s)) eqn:E;
          [|reflexivity].
        apply (hits_thins p prev c _ s Hp (rule_sub_thins q s _)) in E.
        congruence.
    + rewrite Hpe in Hs. rewrite Ht in Hs. now apply repl_not_lit in Hs.
  - rewrite Ht in Hs. rewrite HstL, last_of_lit in Hs.
    apply app_inv_head in Hs.
    rewrite HstR, last_of_repl. f_equal. apply IH; [|assumption].
    rewrite Ht, length_app.
    pose proof (lit_not_nil q). destruct (lit q); [congruence | simpl; lia].
Qed.

End Rules.

(** ** The rules against each other *)

(** A position at which a rule has no match, by computation. *)
Ltac miss_side :=
  unfold hits, lit_match;
  first [ reflexivity
        | apply andb_false_intro1; reflexivity
        | apply andb_false_intro2; reflexivity ].

Section RuleFacts.

Context {U : UnicodeTables}.

Lemma rules_wf (p : rule) : In p rules -> wf p = true.
Proof.
  intros H. repeat (destruct H as [<-|H]; [reflexivity|]). destruct H.
Qed.

Ltac spell_out w :=
  let t := eval vm_compute in w in change w with t; cbn [app].

Ltac stable_tac :=
  match goal with
  | |- stable _ ?w =>
      intros prev x; spell_out w;
      repeat (rewrite rule_sub_miss by miss_side); reflexivity
  end.

(** No rule finds a match that starts inside the replacement of a rule. *)
Lemma stable_repl (p q : rule) :
  In p rules -> In q rules -> stable p (repl q).
Proof.
  intros Hp Hq.
  repeat (destruct Hp as [<-|Hp]; [|]); try destruct Hp;
    repeat (destruct Hq as [<-|Hq]; [|]); try destruct Hq; stable_tac.
Qed.

(** No rule finds a match that starts inside the pattern of another. *)
Lemma stable_lit (p q : rule) :
  In p rules -> In q rules -> p <> q -> stable p (lit q).
Proof.
  intros Hp Hq Hne.
  repeat (destruct Hp as [<-|Hp]; [|]); try destruct Hp;
    repeat (destruct Hq as [<-|Hq]; [|]); try destruct Hq;
    try (exfalso; apply Hne; reflexivity); stable_tac.
Qed.

Lemma rules_distinct :
  member <> paren /\ member <> second /\ member <> throw
  /\ member <> return_ /\ paren <> second /\ paren <> throw
  /\ paren <> return_ /\ second <> throw /\ second <> return_
  /\ throw <> return_.
Proof. repeat split; discriminate. Qed.

Lemma fix_body_thins (b : text) : thins (fix_body b) b.
Proof.
  rewrite fix_body_rules.
  repeat (eapply thins_trans; [apply rule_sub_thins|]).
  apply thins_refl.
Qed.

(** After the five rules no rule finds a match. *)
Lemma fix_body_settled (p : rule) (b : text) :
  In p rules -> settled p None (fix_body b).
Proof.
  intros Hp. rewrite fix_body_rules.
  destruct rules_distinct as (D1 & D2 & D3 & D4 & D5 & D6 & D7 & D8 & D9 & D10).
  assert (K : forall p q s, In p rules -> In q rules -> p <> q ->
              settled p None s -> settled p None (rule_sub q None s)).
  { intros p' q s Hp' Hq Hne.
    apply rule_sub_keeps_settled;
      auto using rules_wf, stable_repl, stable_lit. }
  assert (I : forall p s, In p rules -> settled p None (rule_sub p None s)).
  { intros p' s Hp'. apply rule_sub_idem; auto using rules_wf, stable_repl. }
  assert (M : forall p s, In p rules -> settled p None s ->
              settled p None (rule_sub p None s)).
  { intros p' s Hp' Hs. unfold settled in *. now rewrite !Hs. }
  unfold rules in *. cbn [In] in Hp.
  destruct Hp as [<-|[<-|[<-|[<-|[<-|[]]]]]].
  - apply K; [cbn; tauto..| auto |].
    apply K; [cbn; tauto..| auto |].
    apply K; [cbn; tauto..| auto |].
    apply K; [cbn; tauto..| auto |].
    apply I; cbn; tauto.
  - apply K; [cbn; tauto..| auto |].
    apply K; [cbn; tauto..| auto |].
    apply K; [cbn; tauto..| auto |].
    apply I; cbn; tauto.
  - apply K; [cbn; tauto..| auto |].
    apply K; [cbn; tauto..| auto |].
    apply I; cbn; tauto.
  - apply K; [cbn; tauto..| auto |].
    apply I; cbn; tauto.
  - apply I; cbn; tauto.
Qed.

Lemma fix_body_idem (b : text) : fix_body (fix_body b) = fix_body b.
Proof.
  rewrite (fix_body_rules (fix_body b)).
  rewrite (fix_body_settled member b) by (cbn; tauto).
  rewrite (fix_body_settled paren b) by (cbn; tauto).
  rewrite (fix_body_settled second b) by (cbn; tauto).
  rewrite (fix_body_settled throw b) by (cbn; tauto).
  apply (fix_body_settled return_ b). cbn; tauto.
Qed.

End RuleFacts.

Lemma ends_app (p0 a : text) : ends a (p0 ++ a) = true.
Proof. unfold ends. rewrite rev_app_distr. apply starts_app. Qed.

Lemma ends_inv (a s : text) : ends a s = true -> exists p0, s = p0 ++ a.
Proof.
  unfold ends. intros H. apply starts_inv in H as [t Ht].
  exists (rev t). rewrite <- (rev_involutive s), Ht, rev_app_distr.
  now rewrite rev_involutive.
Qed.

Lemma ends_cons (a s : text) (c : char) :
  ends a s = true -> ends a (c :: s) = true.
Proof.
  intros H. apply ends_inv in H as [p0 ->].
  change (c :: p0 ++ a) with ((c :: p0) ++ a). apply ends_app.
Qed.

Lemma ends_app_l (a s t : text) : ends a s = true -> ends a (t ++ s) = true.
Proof.
  intros H. apply ends_inv in H as [p0 ->].
  rewrite app_assoc. apply ends_app.
Qed.

Lemma thins_ends_b (t s a : text) :
  thins t s -> us_free a = true -> ends a t = true -> ends a s = true.
Proof.
  intros Ht Ha H. apply ends_inv in H as [t0 E].
  destruct (thins_ends t s Ht t0 a Ha E) as (s0 & -> & _).
  apply ends_app.
Qed.

(** ** A single occurrence under one rule *)

Section Occurrence.

Context {U : UnicodeTables}.

Lemma hits_cons_app (p : rule) (prev : option char) (c : char) (u v : text) :
  hits p prev ((c :: u) ++ v) = true ->
  starts (lit p) (c :: u) = true ->
  hits p prev (c :: u) = true.
Proof.
  unfold hits, lit_match. intros H Hs.
  apply andb_prop in H as [_ H]. rewrite Hs. exact H.
Qed.

(** An occurrence of [_error] stays where it is: what a rule does before it
    does not depend on it. *)
Lemma rule_sub_new (p : rule) :
  wf p = true ->
  (forall prev post, exists post',
      rule_sub p prev (txt "_error" ++ post) = txt "_error" ++ post') ->
  forall (pre : text) prev post, exists post',
    rule_sub p prev (pre ++ txt "_error" ++ post)
    = rule_sub p prev pre ++ txt "_error" ++ post'.
Proof.
  intros Hwf Hbase.
  induction pre as [pre IH] using text_len_ind. intros prev post.
  destruct pre as [|c pre]; [apply Hbase|].
  change ((c :: pre) ++ txt "_error" ++ post)
    with (c :: (pre ++ txt "_error" ++ post)).
  destruct (rule_sub_cases p prev c (pre ++ txt "_error" ++ post))
    as [[Hm ->]|(t & Ht & Hh & ->)].
  - assert (Hm' : hits p prev (c :: pre) = false).
    { destruct (hits p prev (c :: pre)) eqn:E; [|reflexivity].
      apply (hits_weaken p prev c pre (txt "_error" ++ post)) in E.
      cbn [app] in E. congruence. }
    rewrite (rule_sub_miss p prev c pre Hm').
    destruct (IH pre ltac:(simpl; lia) (Some c) post) as [post' ->].
    now exists post'.
  - assert (Hs : starts (lit p) (c :: pre) = true).
    { unfold hits, lit_match in Hh. apply andb_prop in Hh as [Hh _].
      change (c :: pre ++ txt "_error" ++ post)
        with ((c :: pre) ++ chr "_" :: txt "error" ++ post) in Hh.
      rewrite starts_us in Hh by now apply lit_us_free. exact Hh. }
    pose proof (hits_cons_app p prev c pre _ Hh Hs) as Hh'.
    destruct (hits_inv _ _ _ Hh') as [t' Ht'].
    assert (t = t' ++ txt "_error" ++ post).
    { change (c :: pre ++ txt "_error" ++ post)
        with ((c :: pre) ++ txt "_error" ++ post) in Ht.
      rewrite Ht', <- app_assoc in Ht. now apply app_inv_head in Ht. }
    subst t. rewrite Ht' in *. rewrite (rule_sub_hit p prev t' Hh').
    assert (Hlen : length t' < length (lit p ++ t')).
    { rewrite length_app. pose proof (lit_not_nil p).
      destruct (lit p); [congruence | simpl; lia]. }
    destruct (IH t' Hlen (tail_char p) post) as [post' ->].
    exists post'. now rewrite <- app_assoc.
Qed.

Lemma new_member (prev : option char) (post : text) :
  exists post',
    rule_sub member prev (txt "_error" ++ post) = txt "_error" ++ post'.
Proof.
  change (txt "_error" ++ post)
    with (chr "_" :: chr "e" :: chr "r" :: chr "r" :: chr "o" :: chr "r"
          :: post).
  repeat (rewrite rule_sub_miss by miss_side). eexists. reflexivity.
Qed.

Lemma new_paren (prev : option char) (post : text) :
  exists post',
    rule_sub paren prev (txt "_error" ++ post) = txt "_error" ++ post'.
Proof.
  change (txt "_error" ++ post)
    with (chr "_" :: chr "e" :: chr "r" :: chr "r" :: chr "o" :: chr "r"
          :: post).
  repeat (rewrite rule_sub_miss by miss_side). eexists. reflexivity.
Qed.

Lemma new_second (prev : option char) (post : text) :
  exists post',
    rule_sub second prev (txt "_error" ++ post) = txt "_error" ++ post'.
Proof.
  change (txt "_error" ++ post)
    with (chr "_" :: chr "e" :: chr "r" :: chr "r" :: chr "o" :: chr "r"
          :: post).
  repeat (rewrite rule_sub_miss by miss_side). eexists. reflexivity.
Qed.

Lemma new_throw (prev : option char) (post : text) :
  exists post',
    rule_sub throw prev (txt "_error" ++ post) = txt "_error" ++ post'.
Proof.
  change (txt "_error" ++ post)
    with (chr "_" :: chr "e" :: chr "r" :: chr "r" :: chr "o" :: chr "r"
          :: post).
  repeat (rewrite rule_sub_miss by miss_side). eexists. reflexivity.
Qed.

(** The last [r] of [_error] may begin a match of [return error;]; the
    replacement begins with the same [r]. *)
Lemma new_return (prev : option char) (post : text) :
  exists post',
    rule_sub return_ prev (txt "_error" ++ post) = txt "_error" ++ post'.
Proof.
  change (txt "_error" ++ post)
    with (chr "_" :: chr "e" :: chr "r" :: chr "r" :: chr "o" :: chr "r"
          :: post).
  repeat (rewrite rule_sub_miss by miss_side).
  destruct (rule_sub_cases return_ (Some (chr "o")) (chr "r") post)
    as [[_ ->]|(t & _ & _ & ->)]; eexists; reflexivity.
Qed.

Lemma fix_body_new (pre post : text) :
  exists post',
    fix_body (pre ++ txt "_error" ++ post)
    = fix_body pre ++ txt "_error" ++ post'.
Proof.
  rewrite !fix_body_rules.
  destruct (rule_sub_new member eq_refl new_member pre None post) as [p1 ->].
  destruct (rule_sub_new paren eq_refl new_paren
              (rule_sub member None pre) None p1) as [p2 ->].
  destruct (rule_sub_new second eq_refl new_second
              (rule_sub paren None (rule_sub member None pre)) None p2)
    as [p3 ->].
  destruct (rule_sub_new throw eq_refl new_throw
              (rule_sub second None
                 (rule_sub paren None (rule_sub member None pre))) None p3)
    as [p4 ->].
  destruct (rule_sub_new return_ eq_refl new_return
              (rule_sub throw None
                 (rule_sub second None
                    (rule_sub paren None (rule_sub member None pre))))
              None p4) as [p5 ->].
  now exists p5.
Qed.

End Occurrence.

Lemma starts_split (l u v : text) :
  starts l (u ++ v) = true -> length u < length l ->
  u = firstn (length u) l /\ starts (skipn (length u) l) v = true.
Proof.
  revert u; induction l as [|x l IH]; intros u H Hl; [simpl in Hl; lia|].
  destruct u as [|c u]; [now split|].
  cbn [app starts] in H. apply andb_prop in H as [Hc H].
  apply N.eqb_eq in Hc. subst c. simpl in Hl.
  destruct (IH u H ltac:(lia)) as [Hu Hs].
  cbn [length firstn skipn]. split; [now f_equal | assumption].
Qed.

(** ** An occurrence of the old identifier under one rule *)

Section OldOccurrence.

Context {U : UnicodeTables}.

Lemma shape_app (p : rule) (prev : option char) (u pre post : text) :
  shape p prev (u ++ pre) post = false ->
  shape p (last_of prev u) pre post = false.
Proof.
  unfold shape. intros H.
  destruct (ends (before p) pre) eqn:E; [|reflexivity].
  rewrite (ends_app_l _ _ u E), last_of_app in H. exact H.
Qed.

Lemma shape_thins (p : rule) (prev prev' : option char)
    (pre pre1 post post1 : text) :
  wb p = false -> wf p = true ->
  thins pre1 pre -> thins post1 post ->
  shape p prev pre post = false -> shape p prev' pre1 post1 = false.
Proof.
  unfold shape, wf. intros Hwb Hwf Hpre Hpost H. rewrite Hwb in *.
  apply andb_prop in Hwf as [Hb Ha].
  destruct (ends (before p) pre1) eqn:E1; [|reflexivity].
  destruct (starts (after p) post1) eqn:E2; [|reflexivity].
  rewrite (thins_ends_b _ _ _ Hpre Hb E1) in H.
  rewrite (thins_starts _ _ Hpost _ Ha E2) in H. exact H.
Qed.

Lemma rule_sub_old (p : rule) :
  wf p = true ->
  (wb p = true -> before p = []) ->
  (forall prev post,
      shape p prev [] post = false ->
      exists post',
        rule_sub p prev (txt "error" ++ post) = txt "error" ++ post'
        /\ thins post' post) ->
  (forall u post,
      u <> [] ->
      starts (lit p) (u ++ txt "error" ++ post) = true ->
      starts (lit p) u = true
      \/ (u = before p /\ starts (after p) post = true)) ->
  forall (pre : text) prev post,
    shape p prev pre post = false ->
    exists post',
      rule_sub p prev (pre ++ txt "error" ++ post)
      = rule_sub p prev pre ++ txt "error" ++ post'
      /\ thins post' post.
Proof.
  intros Hwf Hwb Hbase Hover.
  induction pre as [pre IH] using text_len_ind. intros prev post Hsh.
  destruct pre as [|c pre]; [now apply Hbase|].
  change ((c :: pre) ++ txt "error" ++ post)
    with (c :: (pre ++ txt "error" ++ post)).
  destruct (rule_sub_cases p prev c (pre ++ txt "error" ++ post))
    as [[Hm ->]|(t & Ht & Hh & ->)].
  - assert (Hm' : hits p prev (c :: pre) = false).
    { destruct (hits p prev (c :: pre)) eqn:E; [|reflexivity].
      apply (hits_weaken p prev c pre (txt "error" ++ post)) in E.
      cbn [app] in E. congruence. }
    rewrite (rule_sub_miss p prev c pre Hm').
    destruct (IH pre ltac:(simpl; lia) (Some c) post) as (post' & -> & Hth).
    { apply (shape_app p prev [c] pre post Hsh). }
    now exists post'.
  - assert (Hs : starts (lit p) ((c :: pre) ++ txt "error" ++ post) = true).
    { unfold hits, lit_match in Hh. now apply andb_prop in Hh as [Hh _]. }
    destruct (Hover (c :: pre) post ltac:(discriminate) Hs)
      as [Hin|[Hb Ha]].
    + pose proof (hits_cons_app p prev c pre _ Hh Hin) as Hh'.
      destruct (hits_inv _ _ _ Hh') as [t' Ht'].
      assert (t = t' ++ txt "error" ++ post).
      { change (c :: pre ++ txt "error" ++ post)
          with ((c :: pre) ++ txt "error" ++ post) in Ht.
        rewrite Ht', <- app_assoc in Ht. now apply app_inv_head in Ht. }
      subst t. rewrite Ht' in *. rewrite (rule_sub_hit p prev t' Hh').
      assert (Hlen : length t' < length (lit p ++ t')).
      { rewrite length_app. pose proof (lit_not_nil p).
        destruct (lit p); [congruence | simpl; lia]. }
      destruct (IH t' Hlen (tail_char p) post) as (post' & -> & Hth).
      { rewrite <- (last_of_lit p prev). now apply shape_app. }
      exists post'. now rewrite <- app_assoc.
    + exfalso. unfold shape in Hsh.
      destruct (wb p) eqn:Ew; [rewrite Hwb in Hb by reflexivity; discriminate|].
      rewrite Hb, Ha in Hsh.
      rewrite <- (app_nil_l (before p)) in Hsh at 2.
      rewrite ends_app in Hsh. discriminate.
Qed.

Ltac old_plain :=
  intros prev post _;
  change (txt "error" ++ post)
    with (chr "e" :: chr "r" :: chr "r" :: chr "o" :: chr "r" :: post);
  repeat (rewrite rule_sub_miss by miss_side);
  eexists; split; [reflexivity | apply rule_sub_thins].

Lemma old_member (prev : option char) (post : text) :
  shape member prev [] post = false ->
  exists post',
    rule_sub member prev (txt "error" ++ post) = txt "error" ++ post'
    /\ thins post' post.
Proof.
  intros Hsh.
  change (txt "error" ++ post)
    with (chr "e" :: chr "r" :: chr "r" :: chr "o" :: chr "r" :: post).
  rewrite rule_sub_miss by exact Hsh.
  repeat (rewrite rule_sub_miss by miss_side).
  eexists; split; [reflexivity | apply rule_sub_thins].
Qed.

Lemma old_paren :
  forall prev post,
    shape paren prev [] post = false ->
    exists post',
      rule_sub paren prev (txt "error" ++ post) = txt "error" ++ post'
      /\ thins post' post.
Proof. old_plain. Qed.

Lemma old_second :
  forall prev post,
    shape second prev [] post = false ->
    exists post',
      rule_sub second prev (txt "error" ++ post) = txt "error" ++ post'
      /\ thins post' post.
Proof. old_plain. Qed.

Lemma old_throw :
  forall prev post,
    shape throw prev [] post = false ->
    exists post',
      rule_sub throw prev (txt "error" ++ post) = txt "error" ++ post'
      /\ thins post' post.
Proof. old_plain. Qed.

(** The last [r] of [error] may begin a match of [return error;]. *)
Lemma old_return :
  forall prev post,
    shape return_ prev [] post = false ->
    exists post',
      rule_sub return_ prev (txt "error" ++ post) = txt "error" ++ post'
      /\ thins post' post.
Proof.
  intros prev post _.
  change (txt "error" ++ post)
    with (chr "e" :: chr "r" :: chr "r" :: chr "o" :: chr "r" :: post).
  repeat (rewrite rule_sub_miss by miss_side).
  destruct (rule_sub_cases return_ (Some (chr "o")) (chr "r") post)
    as [[_ ->]|(t & Ht & _ & ->)].
  - eexists; split; [reflexivity | apply rule_sub_thins].
  - injection Ht as ->.
    exists (txt "eturn _error;" ++ rule_sub return_ (tail_char return_) t).
    split; [reflexivity|].
    apply (thins_app (txt "eturn _error;") (txt "eturn error;"));
      [|apply rule_sub_thins].
    repeat constructor.
Qed.

(** A match that reaches into the occurrence from the left takes it in the
    place the pattern gives to [error]. *)
Lemma overlap (p : rule) (u post : text) :
  In p rules -> u <> [] ->
  starts (lit p) (u ++ txt "error" ++ post) = true ->
  starts (lit p) u = true \/ (u = before p /\ starts (after p) post = true).
Proof.
  intros Hp Hu H.
  destruct (le_lt_dec (length (lit p)) (length u)) as [Hl|Hl].
  - left. now rewrite starts_long in H.
  - right. destruct (starts_split _ _ _ H Hl) as [Eu Hs].
    remember (length u) as d eqn:Ed.
    assert (Hd : d <> 0) by (destruct u; [congruence | simpl in Ed; lia]).
    change (txt "error" ++ post)
      with (chr "e" :: chr "r" :: chr "r" :: chr "o" :: chr "r" :: post) in Hs.
    unfold rules in Hp. cbn [In] in Hp.
    destruct Hp as [<-|[<-|[<-|[<-|[<-|[]]]]]];
      repeat (destruct d as [|d];
              [ first [ congruence
                      | discriminate Hs
                      | split; [exact Eu | exact Hs] ] | ]);
      exfalso; vm_compute in Hl; lia.
Qed.

Lemma fix_body_old (pre post : text) :
  in_shape pre post = false ->
  exists post',
    fix_body (pre ++ txt "error" ++ post)
    = fix_body pre ++ txt "error" ++ post'.
Proof.
  unfold in_shape. intros H.
  apply orb_false_elim in H as [H H5]. apply orb_false_elim in H as [H H4].
  apply orb_false_elim in H as [H H3]. apply orb_false_elim in H as [H1 H2].
  rewrite !fix_body_rules.
  assert (O : forall p, In p rules -> forall u q, u <> [] ->
              starts (lit p) (u ++ txt "error" ++ q) = true ->
              starts (lit p) u = true
              \/ (u = before p /\ starts (after p) q = true))
    by (intros; now apply overlap).
  destruct (rule_sub_old member eq_refl (fun _ => eq_refl) old_member
              (O member ltac:(cbn; tauto)) pre None post H1)
    as (q1 & -> & T1).
  pose proof (rule_sub_thins member pre None) as P1.
  set (pre1 := rule_sub member None pre) in *.
  destruct (rule_sub_old paren eq_refl ltac:(discriminate) old_paren
              (O paren ltac:(cbn; tauto)) pre1 None q1) as (q2 & -> & T2).
  { now apply (shape_thins paren None None pre pre1 post q1). }
  pose proof (thins_trans _ _ _ (rule_sub_thins paren pre1 None) P1) as P2.
  pose proof (thins_trans _ _ _ T2 T1) as T2'.
  set (pre2 := rule_sub paren None pre1) in *.
  destruct (rule_sub_old second eq_refl ltac:(discriminate) old_second
              (O second ltac:(cbn; tauto)) pre2 None q2) as (q3 & -> & T3).
  { now apply (shape_thins second None None pre pre2 post q2). }
  pose proof (thins_trans _ _ _ (rule_sub_thins second pre2 None) P2) as P3.
  pose proof (thins_trans _ _ _ T3 T2') as T3'.
  set (pre3 := rule_sub second None pre2) in *.
  destruct (rule_sub_old throw eq_refl ltac:(discriminate) old_throw
              (O throw ltac:(cbn; tauto)) pre3 None q3) as (q4 & -> & T4).
  { now apply (shape_thins throw None None pre pre3 post q3). }
  pose proof (thins_trans _ _ _ (rule_sub_thins throw pre3 None) P3) as P4.
  pose proof (thins_trans _ _ _ T4 T3') as T4'.
  set (pre4 := rule_sub throw None pre3) in *.
  destruct (rule_sub_old return_ eq_refl ltac:(discriminate) old_return
              (O return_ ltac:(cbn; tauto)) pre4 None q4) as (q5 & -> & T5).
  { now apply (shape_thins return_ None None pre pre4 post q4). }
  now exists q5.
Qed.

End OldOccurrence.

(** ** Patterns without [\b]: what a match looks at *)

Section Locality.

Context {U : UnicodeTables}.

Lemma match_here_spaces_nil (r : regex) (prev : option char) :
  match_here (Spaces :: r) prev [] = match_here r prev [].
Proof. reflexivity. Qed.

Lemma match_here_spaces_cons (r : regex) (prev : option char) (x : char)
    (s : text) :
  match_here (Spaces :: r) prev (x :: s) =
  if is_space x then
    match match_here (Spaces :: r) (Some x) s with
    | Some n => Some (S n)
    | None => match_here r prev (x :: s)
    end
  else match_here r prev (x :: s).
Proof. reflexivity. Qed.

Lemma match_here_ch_cons (r : regex) (prev : option char) (c x : char)
    (s : text) :
  match_here (Ch c :: r) prev (x :: s) =
  if N.eqb x c then option_map S (match_here r (Some x) s) else None.
Proof. reflexivity. Qed.

Lemma match_here_prev (r : regex) :
  wb_free r = true ->
  forall prev prev' s, match_here r prev s = match_here r prev' s.
Proof.
  induction r as [|a r IH]; intros Hr prev prev' s; [reflexivity|].
  destruct a as [c| |]; cbn [wb_free] in Hr; [| |discriminate].
  - reflexivity.
  - destruct s as [|x s].
    + rewrite !match_here_spaces_nil. now apply IH.
    + rewrite !match_here_spaces_cons.
      now rewrite (IH Hr prev prev' (x :: s)).
Qed.

(** A match in a text is still found, maybe longer, when the text goes
    on. *)
Lemma match_here_mono (r : regex) :
  wb_free r = true ->
  forall v prev n t,
    match_here r prev v = Some n ->
    exists n', match_here r prev (v ++ t) = Some n'.
Proof.
  induction r as [|a r IH]; intros Hr v prev n t H.
  - now exists 0.
  - destruct a as [c| |]; cbn [wb_free] in Hr; [| |discriminate].
    + destruct v as [|x v]; [discriminate|].
      cbn [app]. rewrite match_here_ch_cons in *.
      destruct (N.eqb x c); [|discriminate].
      destruct (match_here r (Some x) v) as [m|] eqn:E; [|discriminate].
      destruct (IH Hr v (Some x) m t E) as [m' ->]. now exists (S m').
    + revert prev n H. induction v as [|x v IHv]; intros prev n H.
      * rewrite match_here_spaces_nil in H.
        destruct (IH Hr [] prev n t H) as [n' Hn'].
        cbn [app] in *. destruct t as [|y t].
        -- rewrite match_here_spaces_nil. now exists n'.
        -- rewrite match_here_spaces_cons.
           destruct (is_space y); [|now exists n'].
           destruct (match_here (Spaces :: r) (Some y) t) as [k|];
             [now exists (S k) | now exists n'].
      * cbn [app]. rewrite match_here_spaces_cons in *.
        destruct (is_space x).
        -- destruct (match_here (Spaces :: r) (Some x) v) as [k|] eqn:E.
           ++ destruct (IHv _ _ E) as [k' ->]. now exists (S k').
           ++ destruct (IH Hr (x :: v) prev n t H) as [n' Hn'].
              cbn [app] in Hn'.
              destruct (match_here (Spaces :: r) (Some x) (v ++ t)) as [k|];
                [now exists (S k) | now exists n'].
        -- destruct (IH Hr (x :: v) prev n t H) as [n' Hn']. now exists n'.
Qed.

Lemma blocked_tl (a : atom) (r : regex) (t : text) :
  blocked (a :: r) t -> blocked r t.
Proof. now intros [_ H]. Qed.

Lemma blocked_hd (a : atom) (r : regex) (t : text) (prev : option char) :
  blocked (a :: r) t -> match_here (a :: r) prev t = None.
Proof. intros [H _]. apply H. Qed.

(** A match in a text that goes on with [t] lies before [t] when no part
    of the pattern can go on into [t]. *)
Lemma match_here_local (r : regex) :
  wb_free r = true ->
  forall t, blocked r t ->
  forall v prev n,
    match_here r prev (v ++ t) = Some n -> match_here r prev v = Some n.
Proof.
  induction r as [|a r IH]; intros Hr t Hb v prev n H.
  - exact H.
  - destruct a as [c| |]; cbn [wb_free] in Hr; [| |discriminate].
    + destruct v as [|x v].
      * cbn [app] in H. now rewrite (blocked_hd _ _ _ prev Hb) in H.
      * cbn [app] in H. rewrite match_here_ch_cons in *.
        destruct (N.eqb x c); [|discriminate].
        destruct (match_here r (Some x) (v ++ t)) as [m|] eqn:E;
          [|discriminate].
        now rewrite (IH Hr t (blocked_tl _ _ _ Hb) v (Some x) m E).
    + revert prev n H. induction v as [|x v IHv]; intros prev n H.
      * cbn [app] in H. now rewrite (blocked_hd _ _ _ prev Hb) in H.
      * cbn [app] in H. rewrite match_here_spaces_cons in *.
        destruct (is_space x).
        -- destruct (match_here (Spaces :: r) (Some x) (v ++ t)) as [k|] eqn:E.
           ++ now rewrite (IHv _ _ E).
           ++ destruct (match_here (Spaces :: r) (Some x) v) as [k|] eqn:E'.
              ** destruct (match_here_mono (Spaces :: r) Hr v (Some x) k t E')
                   as [k' Hk']. congruence.
              ** apply (IH Hr t (blocked_tl _ _ _ Hb) (x :: v) prev n H).
        -- apply (IH Hr t (blocked_tl _ _ _ Hb) (x :: v) prev n H).
Qed.

Lemma apart_nil (r : regex) : apart r [].
Proof. intros v prev _. now rewrite app_nil_r. Qed.

Lemma apart_blocked (c : char) (r : regex) (t : text) :
  wb_free r = true -> blocked r t -> apart (Ch c :: r) t.
Proof.
  intros Hr Hb v prev Hv. destruct v as [|x v]; [contradiction|].
  cbn [app match_here]. destruct (N.eqb x c); [|reflexivity].
  destruct (match_here r (Some x) (v ++ t)) as [m|] eqn:E.
  - now rewrite (match_here_local r Hr t Hb v (Some x) m E).
  - destruct (match_here r (Some x) v) as [m|] eqn:E'; [|reflexivity].
    destruct (match_here_mono r Hr v (Some x) m t E') as [m' Hm'].
    congruence.
Qed.

(** The scan of a text that goes on with [t] is the scan of the text, then
    the scan of [t]. *)
Lemma scan_glue (r : regex) (t : text) :
  apart r t ->
  forall (g : text) prev,
    scan r prev (g ++ t) = scan r prev g ++ scan r (last_of prev g) t.
Proof.
  intros Ha. induction g as [g IH] using text_len_ind. intros prev.
  destruct g as [|c g]; [reflexivity|].
  pose proof (Ha (c :: g) prev ltac:(discriminate)) as Hm.
  destruct (match_here r prev (c :: g)) as [[|k]|] eqn:E.
  - unfold scan in *. cbn [app scan_go] in *. rewrite Hm, E.
    cbn [app]. f_equal. apply (IH g). simpl. lia.
  - pose proof (match_here_le _ _ _ _ E) as Hle.
    assert (Hlen : length (firstn (S k) (c :: g)) = S k)
      by (rewrite length_firstn; lia).
    pose proof (firstn_skipn (S k) (c :: g)) as Hg.
    remember (firstn (S k) (c :: g)) as m eqn:Em.
    remember (skipn (S k) (c :: g)) as u eqn:Eu.
    assert (Hne : m <> []) by (intros ->; discriminate).
    assert (Hu : length u < length (c :: g))
      by (rewrite <- Hg, length_app, Hlen; lia).
    rewrite <- Hg in *. rewrite <- Hlen in Hm, E.
    rewrite <- app_assoc in Hm |- *.
    rewrite (scan_match r prev m (u ++ t) Hne Hm).
    rewrite (scan_match r prev m u Hne E).
    cbn [app]. f_equal. now rewrite (IH u Hu), last_of_app.
  - unfold scan in *. cbn [app scan_go] in *. rewrite Hm, E.
    cbn [app]. f_equal. apply (IH g). simpl. lia.
Qed.

End Locality.

(** ** Tokens, pieces and matches *)

Lemma pieces_not_nil (toks : list token) : pieces toks <> [].
Proof.
  induction toks as [|[c|m] toks IH]; cbn [pieces]; try discriminate.
  destruct (pieces toks); discriminate.
Qed.

Lemma pieces_length (toks : list token) :
  length (pieces toks) = S (length (matches toks)).
Proof.
  induction toks as [|[c|m] toks IH]; cbn [pieces matches length].
  - reflexivity.
  - pose proof (pieces_not_nil toks). destruct (pieces toks); [congruence|].
    exact IH.
  - now rewrite IH.
Qed.

Lemma matches_app (a b : list token) :
  matches (a ++ b) = matches a ++ matches b.
Proof.
  induction a as [|[c|m] a IH]; cbn [app matches]; [reflexivity|assumption|].
  now rewrite IH.
Qed.

Lemma pieces_plain (toks : list token) :
  matches toks = [] -> pieces toks = [spell toks].
Proof.
  induction toks as [|[c|m] toks IH]; cbn [matches]; intros H;
    [reflexivity| |discriminate].
  cbn [pieces]. now rewrite (IH H).
Qed.

(** The text is the first piece, then every match with the piece after
    it. *)
Lemma pieces_spell (toks : list token) :
  spell toks
  = hd [] (pieces toks)
    ++ concat (map (fun hp => fst hp ++ snd hp)
                 (combine (matches toks) (tl (pieces toks)))).
Proof.
  unfold spell.
  induction toks as [|[c|m] toks IH]; cbn [pieces matches map concat].
  - reflexivity.
  - pose proof (pieces_not_nil toks).
    destruct (pieces toks) as [|p ps]; [congruence|].
    cbn [hd tl] in *. cbn [token_text app]. now rewrite IH.
  - pose proof (pieces_not_nil toks).
    destruct (pieces toks) as [|p ps]; [congruence|].
    cbn [hd tl combine map concat fst snd token_text app] in *.
    now rewrite IH, app_assoc.
Qed.

Lemma pieces_assembled (h : text) (tss : list (list token)) :
  Forall (fun ts => matches ts = []) tss ->
  forall tg, matches tg = [] ->
    pieces (tg ++ concat (map (fun ts => Match h :: ts) tss))
    = spell tg :: map spell tss.
Proof.
  induction 1 as [|ts tss Hts Htss IH]; intros tg Hg.
  - cbn [map concat]. rewrite app_nil_r. now apply pieces_plain.
  - cbn [map concat].
    assert (Hx : pieces ((Match h :: ts)
                         ++ concat (map (fun ts => Match h :: ts) tss))
                 = [] :: spell ts :: map spell tss).
    { cbn [app pieces]. now rewrite (IH ts Hts). }
    remember ((Match h :: ts)
              ++ concat (map (fun ts => Match h :: ts) tss)) as x eqn:Ex.
    clear Ex. induction tg as [|[c|m] tg IHg]; cbn [matches] in Hg;
      [| |discriminate].
    + exact Hx.
    + cbn [app pieces]. rewrite (IHg Hg). reflexivity.
Qed.

Lemma matches_assembled_length (h : text) (tss : list (list token)) :
  length (matches (concat (map (fun ts => Match h :: ts) tss)))
  = length tss + length (concat (map matches tss)).
Proof.
  induction tss as [|ts tss IH]; [reflexivity|].
  cbn [map concat app matches length].
  rewrite matches_app, !length_app, IH. lia.
Qed.

Lemma concat_nil_Forall (A : Type) (l : list (list A)) :
  length (concat l) = 0 -> Forall (fun x => x = []) l.
Proof.
  induction l as [|x l IH]; intros H; constructor.
  - cbn [concat] in H. rewrite length_app in H.
    destruct x; [reflexivity | simpl in H; lia].
  - apply IH. cbn [concat] in H. rewrite length_app in H. lia.
Qed.

(** ** Documents *)

Section Document.

Context {U : UnicodeTables}.

Lemma scan_go_prev (r : regex) :
  wb_free r = true ->
  forall s k prev prev', scan_go r prev k s = scan_go r prev' k s.
Proof.
  intros Hr. induction s as [|c s IH]; intros k prev prev'; [reflexivity|].
  destruct k as [|k]; cbn [scan_go]; [|reflexivity].
  now rewrite (match_here_prev r Hr prev prev').
Qed.

Lemma scan_prev (r : regex) (prev prev' : option char) (s : text) :
  wb_free r = true -> scan r prev s = scan r prev' s.
Proof. intros Hr. now apply scan_go_prev. Qed.

Lemma catch_wb_free : wb_free catch_pattern = true.
Proof. reflexivity. Qed.

Lemma catch_header (prev : option char) (t : text) :
  match_here catch_pattern prev (header ++ t) = Some (length header).
Proof. reflexivity. Qed.

(** A match of the header pattern that begins before an emitted header
    ends before it. *)
Lemma catch_apart (t : text) : apart catch_pattern (header ++ t).
Proof.
  change catch_pattern with (Ch (chr "c") :: tl catch_pattern).
  apply apart_blocked; [reflexivity|].
  cbv [catch_pattern tl txt list_ascii_of_string map app blocked].
  repeat split; intros; reflexivity.
Qed.

(** The scan of a first piece followed by emitted headers and pieces. *)
Lemma scan_assembled (ps : list text) :
  forall g,
    toks (g ++ concat (map (fun p : text => header ++ p) ps))
    = toks g ++ concat (map (fun p : text => Match header :: toks p) ps).
Proof.
  unfold toks. induction ps as [|p ps IH]; intros g.
  - cbn [map concat]. now rewrite !app_nil_r.
  - cbn [map concat]. rewrite <- app_assoc.
    rewrite scan_glue by apply catch_apart.
    f_equal.
    rewrite scan_match;
      [|discriminate | apply catch_header].
    rewrite (scan_prev catch_pattern _ None) by reflexivity.
    now rewrite IH.
Qed.

Lemma clean_matches (g : text) : clean g <-> matches (toks g) = [].
Proof.
  unfold clean, re_split. fold (toks g). split; intros H.
  - pose proof (pieces_length (toks g)) as Hl. rewrite H in Hl.
    simpl in Hl. destruct (matches (toks g)); [reflexivity | simpl in Hl; lia].
  - rewrite (pieces_plain _ H). unfold spell, toks. now rewrite scan_spells.
Qed.

Lemma clean_toks (g : text) : clean g -> spell (toks g) = g.
Proof. intros _. unfold spell, toks. apply scan_spells. Qed.

(** The pieces of a text put together from clean pieces and emitted
    headers are these pieces. *)
Lemma re_split_assembled (g : text) (ps : list text) :
  clean g -> Forall clean ps ->
  re_split catch_pattern (g ++ concat (map (fun p : text => header ++ p) ps))
  = g :: ps.
Proof.
  intros Hg Hps. unfold re_split. fold (toks (g ++ concat (map (fun p : text => header ++ p) ps))).
  rewrite scan_assembled.
  rewrite <- (map_map toks (fun ts => Match header :: ts)).
  rewrite pieces_assembled.
  - rewrite map_map. f_equal; [now apply clean_toks|].
    rewrite <- (map_id ps) at 2. apply map_ext_in.
    intros p Hp. apply clean_toks.
    rewrite Forall_forall in Hps. now apply Hps.
  - rewrite Forall_map. eapply Forall_impl; [|exact Hps].
    intros p Hp. now apply clean_matches.
  - now apply clean_matches.
Qed.

(** As many pieces as before: the pieces are clean. *)
Lemma assembled_clean (g : text) (ps : list text) :
  length (re_split catch_pattern
            (g ++ concat (map (fun p : text => header ++ p) ps)))
  = S (length ps) ->
  clean g /\ Forall clean ps.
Proof.
  unfold re_split.
  fold (toks (g ++ concat (map (fun p : text => header ++ p) ps))).
  rewrite scan_assembled, pieces_length, matches_app.
  rewrite <- (map_map toks (fun ts => Match header :: ts)).
  rewrite length_app, matches_assembled_length, length_map.
  intros H.
  assert (H1 : length (matches (toks g)) = 0) by lia.
  assert (H2 : length (concat (map matches (map toks ps))) = 0) by lia.
  split.
  - apply clean_matches. now destruct (matches (toks g)).
  - apply concat_nil_Forall in H2. rewrite map_map, Forall_map in H2.
    eapply Forall_impl; [|exact H2]. intros p Hp. now apply clean_matches.
Qed.

(** *** What one turn of the loop appends *)

Lemma loop_step_eq (result : list text) (changes_made : Z) (p : text) :
  concat (fst (loop_step (result, changes_made) p))
  = concat result ++ header ++ fix_piece p
  /\ snd (loop_step (result, changes_made) p)
     = (changes_made + if piece_changed p then 1 else 0)%Z.
Proof.
  unfold loop_step, fix_piece, piece_changed.
  destruct (Nat.ltb 0 (find_end p)); cbn [andb fst snd];
    rewrite concat_app; cbn [concat]; rewrite app_nil_r.
  - split; [reflexivity|].
    destruct (negb (text_eqb (fix_body (firstn (find_end p) p))
                             (firstn (find_end p) p))); lia.
  - split; [reflexivity | lia].
Qed.

Lemma loop_fold (ps : list text) :
  forall result changes_made,
    concat (fst (fold_left loop_step ps (result, changes_made)))
    = concat result ++ concat (map (fun p => header ++ fix_piece p) ps)
    /\ snd (fold_left loop_step ps (result, changes_made))
       = (changes_made + Z.of_nat (length (filter piece_changed ps)))%Z.
Proof.
  induction ps as [|p ps IH]; intros result n.
  - cbn [fold_left map concat filter length fst snd].
    rewrite app_nil_r. split; [reflexivity | lia].
  - cbn [fold_left map concat filter].
    destruct (loop_step_eq result n p) as [H1 H2].
    destruct (loop_step (result, n) p) as [result' n'].
    cbn [fst snd] in H1, H2.
    destruct (IH result' n') as [H3 H4]. rewrite H3, H4, H1, H2.
    split; [now rewrite <- !app_assoc|].
    destruct (piece_changed p); cbn [length]; lia.
Qed.

(** The result of [rewrite] from the pieces of the text. *)
Lemma rewrite_pieces (content : text) :
  rewrite content
  = (hd [] (re_split catch_pattern content)
     ++ concat (map (fun p => header ++ fix_piece p)
                  (tl (re_split catch_pattern content))),
     Z.of_nat (length (filter piece_changed
                         (tl (re_split catch_pattern content))))).
Proof.
  unfold rewrite.
  destruct (re_split catch_pattern content) as [|g ps] eqn:E.
  - exfalso. now apply (pieces_not_nil (scan catch_pattern None content)).
  - cbn [hd tl length].
    destruct ps as [|p ps].
    + cbn [length Nat.ltb Nat.leb map concat filter]. rewrite app_nil_r.
      f_equal. assert (Hc : clean content).
      { apply clean_matches. pose proof (pieces_length (toks content)) as Hl.
        unfold re_split in E. fold (toks content) in E. rewrite E in Hl.
        simpl in Hl. destruct (matches (toks content));
          [reflexivity | simpl in Hl; lia]. }
      unfold clean in Hc. congruence.
    + change (Nat.ltb 1 (S (length (p :: ps)))) with true. cbv iota.
      destruct (loop_fold (p :: ps) [g] 0%Z) as [H1 H2].
      match goal with
      | |- context [fold_left ?f ?l ?a] =>
          change (fold_left f l a)
            with (fold_left loop_step (p :: ps) ([g], 0%Z))
      end.
      destruct (fold_left loop_step (p :: ps) ([g], 0%Z)) as [res n].
      cbn [fst snd] in *. rewrite H1, H2.
      cbn [concat]. rewrite app_nil_r. reflexivity.
Qed.

End Document.

(** ** Segments of a document *)

Section Segments.

Context {U : UnicodeTables}.

Lemma src_text_app (a b : list segment) :
  src_text (a ++ b) = src_text a ++ src_text b.
Proof. unfold src_text. now rewrite map_app, concat_app. Qed.

Lemma out_text_app (a b : list segment) :
  out_text (a ++ b) = out_text a ++ out_text b.
Proof. unfold out_text. now rewrite map_app, concat_app. Qed.

Lemma piece_segments_src (hp : text * text) :
  src_text (piece_segments hp) = fst hp ++ snd hp.
Proof.
  unfold piece_segments, src_text.
  destruct (Nat.ltb 0 (find_end (snd hp))); cbn [map concat seg_src];
    rewrite app_nil_r; [|reflexivity].
  now rewrite firstn_skipn.
Qed.

Lemma piece_segments_out (hp : text * text) :
  out_text (piece_segments hp) = header ++ fix_piece (snd hp).
Proof.
  unfold piece_segments, out_text, fix_piece.
  destruct (Nat.ltb 0 (find_end (snd hp))); cbn [map concat seg_out];
    now rewrite app_nil_r.
Qed.

Lemma blocks_src (l : list (text * text)) :
  src_text (concat (map piece_segments l))
  = concat (map (fun hp => fst hp ++ snd hp) l).
Proof.
  induction l as [|hp l IH]; [reflexivity|].
  cbn [map concat]. now rewrite src_text_app, piece_segments_src, IH.
Qed.

Lemma blocks_out (l : list (text * text)) :
  out_text (concat (map piece_segments l))
  = concat (map (fun hp => header ++ fix_piece (snd hp)) l).
Proof.
  induction l as [|hp l IH]; [reflexivity|].
  cbn [map concat]. now rewrite out_text_app, piece_segments_out, IH.
Qed.

Lemma blocks_pieces (content : text) :
  map snd (blocks content) = tl (re_split catch_pattern content).
Proof.
  unfold blocks, re_findall, re_split.
  pose proof (pieces_length (scan catch_pattern None content)) as Hl.
  pose proof (pieces_not_nil (scan catch_pattern None content)) as Hn.
  destruct (pieces (scan catch_pattern None content)) as [|g ps];
    [congruence|].
  cbn [tl length] in *. injection Hl as Hl.
  remember (matches (scan catch_pattern None content)) as hs eqn:E.
  clear E Hn. revert hs Hl.
  induction ps as [|p ps IH]; intros [|h hs] Hl; simpl in Hl;
    try discriminate; [reflexivity|].
  cbn [combine map snd]. f_equal. apply IH. lia.
Qed.

Lemma blocks_headers (content : text) :
  map fst (blocks content) = re_findall catch_pattern content.
Proof.
  unfold blocks, re_findall, re_split.
  pose proof (pieces_length (scan catch_pattern None content)) as Hl.
  pose proof (pieces_not_nil (scan catch_pattern None content)) as Hn.
  destruct (pieces (scan catch_pattern None content)) as [|g ps];
    [congruence|].
  cbn [tl length] in *. injection Hl as Hl.
  remember (matches (scan catch_pattern None content)) as hs eqn:E.
  clear E Hn. revert ps Hl.
  induction hs as [|h hs IH]; intros [|p ps] Hl; simpl in Hl;
    try discriminate; [reflexivity|].
  cbn [combine map fst]. f_equal. apply IH. lia.
Qed.

(** The segments spell the document. *)
Lemma segments_src (content : text) : src_text (segments content) = content.
Proof.
  unfold segments.
  change (Outside ?t :: ?l) with ([Outside t] ++ l).
  rewrite src_text_app, blocks_src. unfold src_text at 1.
  cbn [map concat seg_src]. rewrite app_nil_r.
  unfold blocks, re_findall, re_split.
  rewrite <- pieces_spell. unfold spell. apply scan_spells.
Qed.

(** The new text is what the script writes for the segments. *)
Lemma segments_out (content : text) :
  out_text (segments content) = fst (rewrite content).
Proof.
  unfold segments.
  change (Outside ?t :: ?l) with ([Outside t] ++ l).
  rewrite out_text_app, blocks_out. unfold out_text at 1.
  cbn [map concat seg_out]. rewrite app_nil_r.
  rewrite rewrite_pieces. cbn [fst]. f_equal.
  rewrite <- (blocks_pieces content), map_map. reflexivity.
Qed.

(** *** A second pass over a piece *)

Lemma fix_piece_found (p : text) :
  0 < find_end p ->
  exists b r,
    p = b ++ chr "}" :: r /\ b <> [] /\ depth_after 1 b = Some 1%Z
    /\ firstn (find_end p) p = b /\ skipn (find_end p) p = chr "}" :: r.
Proof.
  intros He. destruct (find_end_found p He) as (b & r & Hp & Hl & Hb & Hd).
  exists b, r. repeat split; try assumption.
  - rewrite <- Hl, Hp.
    rewrite firstn_app, Nat.sub_diag, firstn_all. apply app_nil_r.
  - rewrite <- Hl, Hp.
    rewrite skipn_app, Nat.sub_diag, skipn_all. reflexivity.
Qed.

Lemma find_end_fixed (b r : text) :
  b <> [] -> depth_after 1 b = Some 1%Z ->
  find_end (fix_body b ++ chr "}" :: r) = length (fix_body b)
  /\ 0 < length (fix_body b).
Proof.
  intros Hb Hd. pose proof (fix_body_thins b) as Ht. split.
  - unfold find_end. rewrite brace_go_close; [reflexivity|].
    now rewrite (thins_depth _ _ Ht).
  - apply thins_length in Ht. destruct b; [congruence | simpl in Ht; lia].
Qed.

Lemma fix_piece_idem (p : text) :
  fix_piece (fix_piece p) = fix_piece p
  /\ piece_changed (fix_piece p) = false.
Proof.
  destruct (Nat.ltb 0 (find_end p)) eqn:E.
  - pose proof E as E'. apply Nat.ltb_lt in E'.
    destruct (fix_piece_found p E') as (b & r & Hp & Hb & Hd & Hf & Hs).
    assert (H1 : fix_piece p = fix_body b ++ chr "}" :: r)
      by (unfold fix_piece; now rewrite E, Hf, Hs).
    rewrite H1. destruct (find_end_fixed b r Hb Hd) as [He Hpos].
    unfold fix_piece, piece_changed. rewrite He.
    apply Nat.ltb_lt in Hpos. rewrite Hpos.
    rewrite firstn_app, Nat.sub_diag, firstn_all, skipn_app, Nat.sub_diag,
      skipn_all.
    cbn [firstn skipn app]. rewrite app_nil_r, fix_body_idem, text_eqb_refl.
    split; reflexivity.
  - assert (H1 : fix_piece p = p) by (unfold fix_piece; now rewrite E).
    rewrite H1. unfold fix_piece, piece_changed. rewrite E.
    split; reflexivity.
Qed.

Lemma piece_unchanged (p : text) :
  piece_changed p = false -> fix_piece p = p.
Proof.
  unfold piece_changed, fix_piece.
  destruct (Nat.ltb 0 (find_end p)); cbn [andb]; [|reflexivity].
  intros H. apply negb_false_iff, text_eqb_eq in H. rewrite H.
  apply firstn_skipn.
Qed.

End Segments.

(** ** A second pass

    What the script does with the text it wrote: the pieces of the new text
    are pieces of the old pieces, and the bodies it finds in them are parts
    of bodies that the rules have settled. *)

Lemma last_of_some (u : text) (c : char) (prev : option char) :
  last_of None u = Some c -> last_of prev u = Some c.
Proof. destruct u as [|x u]; [discriminate | exact (fun H => H)]. Qed.

Lemma pieces_app_match (t1 t2 : list token) (h : text) :
  pieces (t1 ++ Match h :: t2) = pieces t1 ++ pieces t2.
Proof.
  induction t1 as [|[c|m] t1 IH]; cbn [app pieces].
  - reflexivity.
  - rewrite IH. pose proof (pieces_not_nil t1).
    destruct (pieces t1); [congruence | reflexivity].
  - now rewrite IH.
Qed.

Lemma last_match_split (l : list token) :
  matches l = []
  \/ exists t1 m t2, l = t1 ++ Match m :: t2 /\ matches t2 = [].
Proof.
  induction l as [|[c|m] l IH].
  - now left.
  - destruct IH as [H|(t1 & m & t2 & -> & H)]; [now left|].
    right. now exists (Plain c :: t1), m, t2.
  - destruct IH as [H|(t1 & m' & t2 & -> & H)].
    + right. now exists [], m, l.
    + right. now exists (Match m :: t1), m', t2.
Qed.

Lemma spell_app (a b : list token) : spell (a ++ b) = spell a ++ spell b.
Proof. unfold spell. now rewrite map_app, concat_app. Qed.

Lemma spell_plain (w : text) : spell (map Plain w) = w.
Proof.
  unfold spell. induction w as [|c w IH]; [reflexivity|].
  cbn [map concat token_text app]. now rewrite IH.
Qed.

Lemma matches_plain (w : text) : matches (map Plain w) = [].
Proof. induction w as [|c w IH]; [reflexivity | exact IH]. Qed.

(** The first piece begins the text; a later piece stands after a match. *)
Lemma pieces_places (l : list token) :
  Forall token_ok l ->
  (exists w, spell l = hd [] (pieces l) ++ w)
  /\ forall q, In q (tl (pieces l)) ->
       exists u w, spell l = u ++ q ++ w
                   /\ last_of None u = Some (chr "{").
Proof.
  induction 1 as [|t l Ht Hl IH].
  - split; [now exists [] | intros q []].
  - destruct IH as [[w0 Hw0] IHt].
    pose proof (pieces_not_nil l) as Hn.
    destruct t as [c|m]; cbn [pieces].
    + destruct (pieces l) as [|p0 ps] eqn:E; [congruence|].
      cbn [hd tl] in *. split.
      * exists w0. unfold spell in *. cbn [map concat token_text app].
        now rewrite Hw0.
      * intros q Hq. destruct (IHt q Hq) as (u & w & Hs & Hu).
        exists (c :: u), w. split.
        -- unfold spell in *. cbn [map concat token_text app].
           now rewrite Hs.
        -- cbn [last_of]. now apply last_of_some.
    + cbn [hd tl]. cbn [token_ok] in Ht. split.
      * now exists (spell (Match m :: l)).
      * intros q Hq. destruct (pieces l) as [|p0 ps] eqn:E; [congruence|].
        cbn [hd tl] in *. destruct Hq as [<-|Hq].
        -- exists m, w0. split; [|assumption].
           unfold spell in *. cbn [map concat token_text]. now rewrite Hw0.
        -- destruct (IHt q Hq) as (u & w & Hs & Hu).
           exists (m ++ u), w. split.
           ++ unfold spell in *. cbn [map concat token_text].
              now rewrite Hs, <- !app_assoc.
           ++ rewrite last_of_app. now apply last_of_some.
Qed.

Section SecondPass.

Context {U : UnicodeTables}.

(** A match of a pattern that ends with a character ends with it. *)
Lemma match_here_last (r : regex) (c : char) :
  forall prev s n,
    match_here (r ++ [Ch c]) prev s = Some n ->
    last_of None (firstn n s) = Some c.
Proof.
  induction r as [|a r IH]; intros prev s n H.
  - destruct s as [|x s]; [discriminate|].
    cbn [app] in H. rewrite match_here_ch_cons in H.
    destruct (N.eqb x c) eqn:E; [|discriminate].
    apply N.eqb_eq in E. subst x. cbn [match_here option_map] in H.
    injection H as <-. reflexivity.
  - destruct a as [a| |].
    + destruct s as [|x s]; [discriminate|].
      cbn [app] in H. rewrite match_here_ch_cons in H.
      destruct (N.eqb x a); [|discriminate].
      destruct (match_here (r ++ [Ch c]) (Some x) s) as [m|] eqn:E;
        [|discriminate].
      injection H as <-. cbn [firstn last_of].
      apply last_of_some. now apply (IH (Some x)).
    + revert prev n H. induction s as [|x s IHs]; intros prev n H.
      * cbn [app] in H. rewrite match_here_spaces_nil in H.
        now apply (IH prev).
      * cbn [app] in H. rewrite match_here_spaces_cons in H.
        destruct (is_space x); [|now apply (IH prev)].
        change ((Spaces :: r) ++ [Ch c]) with (Spaces :: (r ++ [Ch c])) in IHs.
        destruct (match_here (Spaces :: r ++ [Ch c]) (Some x) s) as [m|] eqn:E.
        -- injection H as <-. cbn [firstn last_of].
           apply last_of_some. now apply (IHs (Some x)).
        -- now apply (IH prev).
    + cbn [app match_here] in H.
      destruct (at_boundary prev (hd_error s)); [|discriminate].
      now apply (IH prev).
Qed.

Lemma catch_match_brace (prev : option char) (s : text) (n : nat) :
  match_here catch_pattern prev s = Some n ->
  last_of None (firstn n s) = Some (chr "{").
Proof.
  change catch_pattern with (removelast catch_pattern ++ [Ch (chr "{")]).
  apply match_here_last.
Qed.

Lemma catch_positive (prev : option char) (s : text) :
  match_here catch_pattern prev s <> Some 0.
Proof. intros H. apply catch_match_brace in H. discriminate. Qed.

(** Every match in a scan with the header pattern ends with a brace. *)
Lemma scan_tokens_ok :
  forall (s : text) prev, Forall token_ok (scan catch_pattern prev s).
Proof.
  induction s as [s IH] using text_len_ind. intros prev.
  destruct s as [|c s]; [constructor|].
  destruct (scan_cases catch_pattern prev c s (catch_positive _ _))
    as [[_ ->]|(m & t & Hm & Hs & Hmatch & ->)].
  - constructor; [exact I|]. apply IH. simpl. lia.
  - constructor.
    + cbn [token_ok]. rewrite Hs in Hmatch.
      apply catch_match_brace in Hmatch.
      now rewrite firstn_app, Nat.sub_diag, firstn_all, app_nil_r in Hmatch.
    + apply IH. rewrite Hs, length_app.
      destruct m; [congruence | simpl; lia].
Qed.

Lemma pieces_inside (l : list token) (q : text) :
  Forall token_ok l -> In q (pieces l) -> inside (spell l) q.
Proof.
  intros Hl Hq. destruct (pieces_places l Hl) as [[w Hw] Ht].
  pose proof (pieces_not_nil l) as Hn.
  destruct (pieces l) as [|p0 ps]; [congruence|]. cbn [hd tl] in *.
  destruct Hq as [<-|Hq].
  - exists [], w. split; [exact Hw | reflexivity].
  - destruct (Ht q Hq) as (u & w' & Hs & Hu). exists u, w'.
    split; [exact Hs|]. now rewrite Hu.
Qed.

(** *** The pieces of a text hold no header *)

Lemma scan_pieces_clean :
  forall (s : text) prev q,
    In q (pieces (scan catch_pattern prev s)) -> clean q.
Proof.
  induction s as [s IH] using text_len_ind. intros prev q Hq.
  destruct s as [|c s].
  - destruct Hq as [<-|[]]. now apply clean_matches.
  - destruct (scan_cases catch_pattern prev c s (catch_positive _ _))
      as [[Hnone Hscan]|(m & t & Hm & Hs & Hmatch & Hscan)];
      rewrite Hscan in Hq; cbn [pieces] in Hq.
    + destruct (pieces_places (scan catch_pattern (Some c) s)
                  (scan_tokens_ok _ _)) as [[w Hw] _].
      unfold spell in Hw. rewrite scan_spells in Hw.
      pose proof (pieces_not_nil (scan catch_pattern (Some c) s)) as Hn.
      destruct (pieces (scan catch_pattern (Some c) s)) as [|p0 ps] eqn:E;
        [congruence|].
      cbn [hd] in Hw. destruct Hq as [<-|Hq].
      * assert (Hp0 : clean p0).
        { apply (IH s) with (prev := Some c); [simpl; lia|].
          rewrite E. now left. }
        apply clean_matches. unfold toks. rewrite scan_plain.
        -- cbn [matches].
           rewrite (scan_prev catch_pattern _ None) by reflexivity.
           now apply clean_matches.
        -- destruct (match_here catch_pattern None (c :: p0)) as [n|] eqn:E';
             [|reflexivity].
           destruct (match_here_mono catch_pattern catch_wb_free
                       (c :: p0) None n w E') as [n' Hn'].
           cbn [app] in Hn'. rewrite <- Hw in Hn'.
           rewrite (match_here_prev catch_pattern catch_wb_free None prev)
             in Hn'.
           congruence.
      * apply (IH s) with (prev := Some c); [simpl; lia|].
        rewrite E. now right.
    + destruct Hq as [<-|Hq]; [now apply clean_matches|].
      apply (IH t) with (prev := last_of prev m); [|assumption].
      rewrite Hs, length_app. destruct m; [congruence | simpl; lia].
Qed.

Lemma re_split_clean (content : text) :
  Forall clean (re_split catch_pattern content).
Proof.
  apply Forall_forall. intros q Hq.
  now apply (scan_pieces_clean content None).
Qed.

Lemma clean_suffix (u v : text) : clean (u ++ v) -> clean v.
Proof.
  induction u as [|c u IH]; intros H; [exact H|].
  apply IH. apply clean_matches. apply clean_matches in H.
  unfold toks in *. cbn [app] in H.
  destruct (scan_cases catch_pattern None c (u ++ v) (catch_positive _ _))
    as [[_ Hscan]|(m & t & _ & _ & _ & Hscan)];
    rewrite Hscan in H; cbn [matches] in H; [|discriminate].
  now rewrite (scan_prev catch_pattern None (Some c)) by reflexivity.
Qed.

(** A match of the header pattern holds no closing brace. *)
Lemma catch_apart_close (t : text) : apart catch_pattern (chr "}" :: t).
Proof.
  change catch_pattern with (Ch (chr "c") :: tl catch_pattern).
  apply apart_blocked; [reflexivity|].
  cbv [catch_pattern tl txt list_ascii_of_string map app blocked].
  repeat split; intros; reflexivity.
Qed.

(** *** Texts the rules have settled *)

Lemma settled_cons (p : rule) (prev : option char) (c : char) (s : text) :
  settled p prev (c :: s)
  <-> hits p prev (c :: s) = false /\ settled p (Some c) s.
Proof.
  unfold settled. split.
  - intros H.
    destruct (rule_sub_cases p prev c s) as [[Hm He]|(t & Ht & _ & He)].
    + rewrite He in H. injection H as H. now split.
    + rewrite He, Ht in H. now apply repl_not_lit in H.
  - intros [Hm Hs]. rewrite rule_sub_miss by assumption. now rewrite Hs.
Qed.

Lemma settled_skip (p : rule) :
  forall u prev x, settled p prev (u ++ x) -> settled p (last_of prev u) x.
Proof.
  induction u as [|c u IH]; intros prev x H; [exact H|].
  cbn [app] in H. apply settled_cons in H as [_ H]. now apply IH.
Qed.

Lemma settled_cut (p : rule) :
  forall v prev w, settled p prev (v ++ w) -> settled p prev v.
Proof.
  induction v as [|c v IH]; intros prev w H; [reflexivity|].
  cbn [app] in H. apply settled_cons in H as [Hm Hs].
  apply settled_cons. split.
  - destruct (hits p prev (c :: v)) eqn:E; [|reflexivity].
    apply (hits_weaken p prev c v w) in E. cbn [app] in E. congruence.
  - now apply (IH (Some c) w).
Qed.

Lemma settled_context (p : rule) (prev prev' : option char) (s : text) :
  is_word_opt prev = is_word_opt prev' ->
  settled p prev s -> settled p prev' s.
Proof.
  intros Hw H. destruct s as [|c s]; [reflexivity|].
  apply settled_cons in H as [Hm Hs]. apply settled_cons.
  split; [|assumption].
  unfold hits, lit_match, at_boundary in *. now rewrite <- Hw.
Qed.

(** A part of a settled text that begins where no word character stands
    before it is settled. *)
Lemma settled_inside (p : rule) (f q : text) :
  settled p None f -> inside f q -> settled p None q.
Proof.
  intros H (u & w & -> & Hu).
  apply settled_skip in H. apply settled_cut in H.
  apply (settled_context p (last_of None u)); [|assumption].
  now rewrite Hu.
Qed.

Lemma settled_fix_body (s : text) :
  (forall p, In p rules -> settled p None s) -> fix_body s = s.
Proof.
  intros H. rewrite fix_body_rules.
  rewrite (H member) by (cbn; tauto).
  rewrite (H paren) by (cbn; tauto).
  rewrite (H second) by (cbn; tauto).
  rewrite (H throw) by (cbn; tauto).
  apply (H return_). cbn; tauto.
Qed.

(** The rules change nothing in such a part of a rewritten body. *)
Lemma fix_body_inside (b q : text) :
  inside (fix_body b) q -> fix_body q = q.
Proof.
  intros H. apply settled_fix_body. intros p Hp.
  apply (settled_inside p (fix_body b)); [|assumption].
  now apply fix_body_settled.
Qed.

Lemma inside_prefix (f q : text) (n : nat) :
  inside f q -> inside f (firstn n q).
Proof.
  intros (u & w & -> & Hu). exists u, (skipn n q ++ w).
  split; [|assumption].
  now rewrite (app_assoc (firstn n q)), firstn_skipn.
Qed.

(** *** The brace scan from a lower count *)

Lemma depth_after_pos (b : text) :
  forall d d', (0 < d)%Z -> depth_after d b = Some d' -> (0 < d')%Z.
Proof.
  induction b as [|c b IH]; intros d d' Hd H; cbn [depth_after] in H.
  - injection H as <-. assumption.
  - destruct (N.eqb c (chr "{")); [apply (IH (d + 1)%Z); [lia|assumption]|].
    destruct (N.eqb c (chr "}")); [|now apply (IH d)].
    destruct (Z.eqb (d - 1) 0) eqn:Ez; [discriminate|].
    apply Z.eqb_neq in Ez. apply (IH (d - 1)%Z); [lia|assumption].
Qed.

Lemma depth_after_app_inv (u v : text) :
  forall d d',
    depth_after d (u ++ v) = Some d' ->
    exists e, depth_after d u = Some e /\ depth_after e v = Some d'.
Proof.
  induction u as [|c u IH]; intros d d' H.
  - now exists d.
  - cbn [app depth_after] in *.
    destruct (N.eqb c (chr "{")); [now apply IH|].
    destruct (N.eqb c (chr "}")); [|now apply IH].
    destruct (Z.eqb (d - 1) 0); [discriminate | now apply IH].
Qed.

(** From a lower count the loop stops no later. *)
Lemma brace_go_lower (q r : text) :
  forall d1 d2 j,
    depth_after d2 q = Some 1%Z -> (1 <= d1 <= d2)%Z ->
    brace_go d1 j (q ++ chr "}" :: r) <= j + length q.
Proof.
  induction q as [|c q IH]; intros d1 d2 j H Hd.
  - cbn [depth_after] in H. injection H as ->.
    assert (d1 = 1%Z) by lia. subst d1.
    cbn [app brace_go length].
    change (N.eqb (chr "}") (chr "{")) with false.
    rewrite N.eqb_refl. cbn. lia.
  - cbn [app depth_after brace_go length] in *.
    destruct (N.eqb c (chr "{")).
    + specialize (IH (d1 + 1)%Z (d2 + 1)%Z (S j) H). lia.
    + destruct (N.eqb c (chr "}")).
      * destruct (Z.eqb (d2 - 1) 0) eqn:E2; [discriminate|].
        apply Z.eqb_neq in E2.
        destruct (Z.eqb (d1 - 1) 0) eqn:E1; [lia|].
        apply Z.eqb_neq in E1.
        specialize (IH (d1 - 1)%Z (d2 - 1)%Z (S j) H). lia.
      * specialize (IH d1 d2 (S j) H). lia.
Qed.

(** *** The pieces of the new text *)

Lemma pieces_concat (h : text) (tss : list (list token)) :
  forall tg,
    pieces (tg ++ concat (map (fun ts => Match h :: ts) tss))
    = pieces tg ++ concat (map pieces tss).
Proof.
  induction tss as [|ts tss IH]; intros tg.
  - cbn [map concat]. now rewrite !app_nil_r.
  - cbn [map concat].
    change ((Match h :: ts) ++ concat (map (fun ts => Match h :: ts) tss))
      with (Match h :: (ts ++ concat (map (fun ts => Match h :: ts) tss))).
    now rewrite pieces_app_match, IH.
Qed.

(** The pieces of the new text are the first piece and the pieces of what
    was written for every old piece. *)
Lemma second_pieces (g : text) (ps : list text) :
  clean g ->
  re_split catch_pattern
    (g ++ concat (map (fun p : text => header ++ fix_piece p) ps))
  = g :: concat (map (fun p : text => re_split catch_pattern (fix_piece p))
                   ps).
Proof.
  intros Hg.
  rewrite <- (map_map fix_piece (fun p : text => header ++ p)).
  unfold re_split at 1.
  fold (toks (g ++ concat (map (fun p : text => header ++ p)
                             (map fix_piece ps)))).
  rewrite scan_assembled.
  rewrite <- (map_map toks (fun ts => Match header :: ts)).
  rewrite pieces_concat, !map_map.
  unfold clean, re_split in Hg. fold (toks g) in Hg. rewrite Hg.
  reflexivity.
Qed.

(** No body in a piece of what was written for a piece is changed by the
    rules. *)
Lemma fix_piece_pieces (p : text) :
  clean p ->
  Forall (fun q => piece_changed q = false)
         (re_split catch_pattern (fix_piece p)).
Proof.
  intros Hc. destruct (Nat.ltb 0 (find_end p)) eqn:E.
  - pose proof E as E'. apply Nat.ltb_lt in E'.
    destruct (fix_piece_found p E') as (b & r & Hp & Hb & Hd & Hf & Hs).
    assert (H1 : fix_piece p = fix_body b ++ chr "}" :: r)
      by (unfold fix_piece; now rewrite E, Hf, Hs).
    pose proof (proj2 (fix_piece_idem p)) as Hidem.
    rewrite H1 in *.
    assert (Hdf : depth_after 1 (fix_body b) = Some 1%Z)
      by now rewrite (thins_depth _ _ (fix_body_thins b)).
    pose proof (fix_body_inside b) as Hin.
    remember (fix_body b) as F eqn:EF. clear EF.
    assert (Hr : matches (scan catch_pattern (last_of None F)
                            (chr "}" :: r)) = []).
    { rewrite (scan_prev catch_pattern _ None) by reflexivity.
      apply (proj1 (clean_matches (chr "}" :: r))).
      apply (clean_suffix b). now rewrite <- Hp. }
    pose proof (scan_spells catch_pattern (last_of None F) (chr "}" :: r))
      as Hr2.
    unfold re_split. rewrite scan_glue by apply catch_apart_close.
    remember (scan catch_pattern (last_of None F) (chr "}" :: r)) as T2
      eqn:ET2. clear ET2. fold (spell T2) in Hr2.
    pose proof (scan_tokens_ok F None) as Hok.
    pose proof (scan_spells catch_pattern None F) as Hsp.
    fold (spell (scan catch_pattern None F)) in Hsp.
    destruct (last_match_split (scan catch_pattern None F))
      as [Hm|(t1 & m & t2 & Et & Hm2)].
    + rewrite pieces_plain by (now rewrite matches_app, Hm, Hr).
      rewrite spell_app, Hsp, Hr2. constructor; [exact Hidem | constructor].
    + rewrite Et in *. rewrite <- app_assoc.
      change ((Match m :: t2) ++ T2) with (Match m :: (t2 ++ T2)).
      rewrite pieces_app_match.
      rewrite (pieces_plain (t2 ++ T2)) by (now rewrite matches_app, Hm2, Hr).
      rewrite spell_app, Hr2.
      apply Forall_app. split.
      * apply Forall_forall. intros q Hq.
        assert (Hi : inside F q).
        { rewrite <- Hsp. apply pieces_inside; [exact Hok|].
          rewrite pieces_app_match. apply in_or_app. now left. }
        unfold piece_changed.
        rewrite (Hin (firstn (find_end q) q)) by now apply inside_prefix.
        rewrite text_eqb_refl. apply andb_false_r.
      * constructor; [|constructor].
        rewrite spell_app in Hsp.
        change (spell (Match m :: t2)) with (m ++ spell t2) in Hsp.
        apply Forall_app in Hok as [_ Hok].
        apply Forall_inv in Hok. cbn [token_ok] in Hok.
        remember (spell t2) as q2 eqn:Eq2. clear Eq2.
        assert (Hi : inside F q2).
        { exists (spell t1 ++ m), []. split.
          - now rewrite app_nil_r, <- app_assoc.
          - rewrite last_of_app. now rewrite (last_of_some m _ _ Hok). }
        rewrite app_assoc in Hsp. rewrite <- Hsp in Hdf.
        destruct (depth_after_app_inv _ _ _ _ Hdf) as (e & He1 & He2).
        assert (Hpos : (0 < e)%Z)
          by (apply (depth_after_pos (spell t1 ++ m) 1%Z e); [lia | exact He1]).
        pose proof (brace_go_lower q2 r 1%Z e 0 He2 ltac:(lia)) as Hle.
        fold (find_end (q2 ++ chr "}" :: r)) in Hle. cbn [Nat.add] in Hle.
        unfold piece_changed.
        rewrite firstn_app.
        replace (find_end (q2 ++ chr "}" :: r) - length q2) with 0 by lia.
        cbn [firstn]. rewrite app_nil_r.
        rewrite (Hin (firstn (find_end (q2 ++ chr "}" :: r)) q2))
          by now apply inside_prefix.
        rewrite text_eqb_refl. apply andb_false_r.
  - assert (H1 : fix_piece p = p) by (unfold fix_piece; now rewrite E).
    rewrite H1. unfold clean in Hc. rewrite Hc.
    constructor; [|constructor]. unfold piece_changed. now rewrite E.
Qed.

Lemma filter_none (A : Type) (f : A -> bool) (l : list A) :
  Forall (fun x => f x = false) l -> filter f l = [].
Proof.
  induction 1 as [|x l Hx Hl IH]; [reflexivity|].
  cbn [filter]. now rewrite Hx.
Qed.

(** A second pass counts no changed body. *)
Lemma second_count (content : text) :
  snd (rewrite (fst (rewrite content))) = 0%Z.
Proof.
  rewrite (rewrite_pieces content). cbn [fst].
  pose proof (re_split_clean content) as Hc.
  pose proof (pieces_not_nil (scan catch_pattern None content)) as Hn.
  fold (re_split catch_pattern content) in Hn.
  destruct (re_split catch_pattern content) as [|g ps]; [congruence|].
  cbn [hd tl]. clear Hn.
  apply Forall_cons_iff in Hc as [Hg Hps].
  rewrite rewrite_pieces. cbn [snd].
  rewrite (second_pieces g ps Hg). cbn [tl].
  rewrite filter_none; [reflexivity|].
  induction Hps as [|p ps Hp Hps IH]; [constructor|].
  cbn [map concat]. apply Forall_app. split; [|exact IH].
  now apply fix_piece_pieces.
Qed.

(** With no changed body and every header written [catch (_error) {], the
    new text is the old one. *)
Lemma unchanged_text (content : text) :
  snd (rewrite content) = 0%Z ->
  Forall (fun h => h = header) (re_findall catch_pattern content) ->
  fst (rewrite content) = content.
Proof.
  intros Hn Hh.
  rewrite <- (segments_src content) at 2. rewrite <- segments_out.
  unfold segments, out_text, src_text. cbn [map concat seg_out seg_src].
  f_equal.
  rewrite rewrite_pieces in Hn. cbn [snd] in Hn.
  rewrite <- blocks_pieces in Hn. rewrite <- blocks_headers in Hh.
  rewrite Forall_map in Hh.
  assert (Hf : filter piece_changed (map snd (blocks content)) = []).
  { destruct (filter piece_changed (map snd (blocks content)));
      [reflexivity | simpl in Hn; lia]. }
  clear Hn. induction Hh as [|hp l Hhp Hl IH]; [reflexivity|].
  cbn [map filter] in Hf.
  destruct (piece_changed (snd hp)) eqn:Ec; [discriminate|].
  cbn [map concat]. rewrite !map_app, !concat_app, (IH Hf). f_equal.
  fold (out_text (piece_segments hp)). fold (src_text (piece_segments hp)).
  rewrite piece_segments_out, piece_segments_src, Hhp.
  now rewrite (piece_unchanged _ Ec).
Qed.

End SecondPass.

(** ** Underscores before [error] *)

Lemma inserts_refl (s : text) : inserts s s.
Proof. induction s as [|c s IH]; constructor; assumption. Qed.

Lemma inserts_thins (t s : text) : inserts t s -> thins t s.
Proof. induction 1; constructor; assumption. Qed.

Lemma inserts_app (t1 s1 t2 s2 : text) :
  inserts t1 s1 -> inserts t2 s2 -> inserts (t1 ++ t2) (s1 ++ s2).
Proof.
  induction 1 as [|c t s H IH|t s H IH Hst]; intros H2; cbn [app].
  - exact H2.
  - constructor. now apply IH.
  - apply inserts_mark; [now apply IH|]. now apply starts_weaken.
Qed.

Lemma inserts_trans (t u s : text) :
  inserts t u -> inserts u s -> inserts t s.
Proof.
  intros H. revert s.
  induction H as [|c t u H IH|t u H IH Hst]; intros s H2.
  - exact H2.
  - inversion H2; subst.
    + constructor. now apply IH.
    + apply inserts_mark; [now apply IH | assumption].
  - apply inserts_mark; [now apply IH|].
    now apply (thins_starts u s (inserts_thins _ _ H2) (txt "error")).
Qed.

Lemma repl_inserts_lit (p : rule) : inserts (repl p) (lit p).
Proof.
  unfold repl, lit. apply inserts_app; [apply inserts_refl|].
  change (txt "_error" ++ after p)
    with (chr "_" :: (txt "error" ++ after p)).
  apply inserts_mark; [apply inserts_refl | apply starts_app].
Qed.

(** ** The five rules, one after the other *)

Section Stages.

Context {U : UnicodeTables}.

Lemma rule_sub_inserts (p : rule) :
  forall s prev, inserts (rule_sub p prev s) s.
Proof.
  induction s as [s IH] using text_len_ind. intros prev.
  destruct s as [|c s]; [constructor|].
  destruct (rule_sub_cases p prev c s) as [[_ ->]|(t & Ht & _ & ->)].
  - constructor. apply IH. simpl. lia.
  - rewrite Ht. apply inserts_app; [apply repl_inserts_lit|].
    apply IH. rewrite Ht, length_app.
    pose proof (lit_not_nil p). destruct (lit p); [congruence | simpl; lia].
Qed.

Lemma settled_no_match (p : rule) :
  forall s prev,
    settled p prev s ->
    matches (scan (lit_regex (wb p) (lit p)) prev s) = [].
Proof.
  induction s as [|c s IH]; intros prev H; [reflexivity|].
  apply settled_cons in H as [Hm Hs].
  rewrite scan_plain.
  - cbn [matches]. now apply IH.
  - rewrite match_here_lit. unfold hits in Hm. now rewrite Hm.
Qed.

Lemma settled_made (p : rule) (s : text) :
  In p rules -> settled p None (rule_sub p None s).
Proof.
  intros Hp. apply rule_sub_idem; auto using rules_wf, stable_repl.
Qed.

Lemma settled_kept (p q : rule) (s : text) :
  In p rules -> In q rules -> p <> q ->
  settled p None s -> settled p None (rule_sub q None s).
Proof.
  intros Hp Hq Hne.
  apply rule_sub_keeps_settled; auto using rules_wf, stable_repl, stable_lit.
Qed.

Lemma replace_go_skip (wb : bool) (l r : text) :
  forall s k prev,
    k <= length s ->
    replace_go wb l r prev k s
    = replace_go wb l r (last_of prev (firstn k s)) 0 (skipn k s).
Proof.
  induction s as [|c s IH]; intros k prev Hk.
  - simpl in Hk. assert (k = 0) by lia. subst. reflexivity.
  - destruct k as [|k]; [reflexivity|].
    simpl in Hk. cbn [replace_go firstn skipn last_of]. apply IH. lia.
Qed.

(** [re.sub] with the pattern of a rule is the replacement of its literal
    as the specification words it. *)
Lemma rule_sub_replace (p : rule) :
  forall s prev,
    rule_sub p prev s = replace_go (wb p) (lit p) (repl p) prev 0 s.
Proof.
  induction s as [s IH] using text_len_ind. intros prev.
  destruct s as [|c s]; [reflexivity|].
  destruct (rule_sub_cases p prev c s) as [[Hm ->]|(t & Ht & Hh & ->)].
  - cbn [replace_go]. unfold hits in Hm. rewrite Hm. f_equal.
    apply IH. simpl. lia.
  - cbn [replace_go]. unfold hits in Hh. rewrite Hh. f_equal.
    assert (Hs : exists l', lit p = c :: l' /\ s = l' ++ t).
    { pose proof (lit_not_nil p) as Hn. revert Ht Hn.
      destruct (lit p) as [|x l']; intros Ht Hn; [congruence|].
      injection Ht as -> ->. now exists l'. }
    destruct Hs as (l' & El & ->).
    replace (tail_char p) with (last_of (Some c) l')
      by (unfold tail_char; now rewrite El).
    replace (length (lit p) - 1) with (length l')
      by (rewrite El; simpl; lia).
    rewrite replace_go_skip by (rewrite length_app; lia).
    rewrite firstn_app, Nat.sub_diag, firstn_all, skipn_app, Nat.sub_diag,
      skipn_all.
    cbn [firstn skipn app]. rewrite app_nil_r.
    apply IH. simpl. rewrite length_app. lia.
Qed.

End Stages.

(** * The claims *)

Lemma net_app (a b : text) : net (a ++ b) = (net a + net b)%Z.
Proof. induction a as [|c a IH]; cbn [app net]; [reflexivity | lia]. Qed.

Lemma nth_error_split_at (s : text) (j : nat) (c : char) :
  nth_error s j = Some c ->
  s = firstn j s ++ c :: skipn (S j) s /\ firstn (S j) s = firstn j s ++ [c].
Proof.
  revert j; induction s as [|x s IH]; intros [|j] H; try discriminate.
  - injection H as ->. now split.
  - cbn [nth_error] in H. destruct (IH j H) as [H1 H2]. split.
    + change (firstn (S j) (x :: s)) with (x :: firstn j s).
      change (skipn (S (S j)) (x :: s)) with (skipn (S j) s).
      cbn [app]. now f_equal.
    + change (firstn (S (S j)) (x :: s)) with (x :: firstn (S j) s).
      change (firstn (S j) (x :: s)) with (x :: firstn j s).
      now rewrite H2.
Qed.

Section Claims.

Context {U : UnicodeTables}.

Lemma fix_error_references_eq (fs : files) (p : path) (content : text) :
  fs p = Some content ->
  fix_error_references fs p
  = Some (if text_eqb (fst (rewrite content)) content
          then (fs, 0%Z)
          else (write_file fs p (fst (rewrite content)),
                snd (rewrite content))).
Proof.
  intros H. unfold fix_error_references. rewrite H.
  destruct (rewrite content) as [new n]. cbn [fst snd].
  now destruct (text_eqb new content).
Qed.

(** C1. Scope isolation: a text that lies outside every body span (the
    text before the first header, the text from the closing brace of a
    block to the next header, a piece in which no end was found) stands
    unaltered in the new text, after what the script wrote for the segments
    before it; so does every reference to [error] in it.  The rules are
    applied to [Body] segments only. *)
Theorem outside_text_unaltered (content : text) (before after : list segment)
    (t : text) :
  segments content = before ++ Outside t :: after ->
  content = src_text before ++ t ++ src_text after
  /\ fst (rewrite content) = out_text before ++ t ++ out_text after.
Proof.
  intros H. split.
  - rewrite <- (segments_src content) at 1. rewrite H, src_text_app.
    reflexivity.
  - rewrite <- (segments_out content), H, out_text_app. reflexivity.
Qed.

Lemma fix_error_references_keeps (fs : files) (p : path) :
  fs p <> None ->
  exists fs' n,
    fix_error_references fs p = Some (fs', n)
    /\ forall q, fs q <> None -> fs' q <> None.
Proof.
  intros Hp. destruct (fs p) as [content|] eqn:E; [|congruence].
  rewrite (fix_error_references_eq fs p content E).
  destruct (text_eqb (fst (rewrite content)) content).
  - exists fs, 0%Z. now split.
  - exists (write_file fs p (fst (rewrite content))), (snd (rewrite content)).
    split; [reflexivity|]. intros q Hq. unfold write_file.
    now destruct (String.eqb q p).
Qed.

(** A run over files that can all be read goes through all of them. *)
Lemma main_runs (js_files : list path) :
  forall fs total_changes files_changed,
    (forall q, In q js_files -> fs q <> None) ->
    exists r,
      fold_left main_step js_files (Some (fs, total_changes, files_changed))
      = Some r.
Proof.
  induction js_files as [|p l IH]; intros fs t f H.
  - now exists (fs, t, f).
  - cbn [fold_left main_step].
    destruct (fix_error_references_keeps fs p (H p (or_introl eq_refl)))
      as (fs' & n & -> & Hk).
    destruct (Z.ltb 0 n); apply IH; intros q Hq; apply Hk, H; now right.
Qed.

(** C2, as the code has it.  The script has no error for a block without
    end: a piece in which the scan finds no end ([end_pos] stays 0) is
    written as it is after the header text, the pieces around it are
    treated as usual, the call returns, and the file is written exactly
    when the new text differs from the old one; a run over files that can
    all be read goes through all of them. *)
Theorem piece_without_end_kept (fs : files) (p : path) (content : text)
    (before after : list (text * text)) (h part : text)
    (js_files : list path) :
  fs p = Some content ->
  blocks content = before ++ (h, part) :: after ->
  find_end part = 0 ->
  fst (rewrite content)
  = (hd [] (re_split catch_pattern content)
     ++ out_text (concat (map piece_segments before)))
    ++ header ++ part ++ out_text (concat (map piece_segments after))
  /\ fix_error_references fs p
     = Some (if text_eqb (fst (rewrite content)) content
             then (fs, 0%Z)
             else (write_file fs p (fst (rewrite content)),
                   snd (rewrite content)))
  /\ ((forall q, In q js_files -> fs q <> None) ->
      exists r, main fs js_files = Some r).
Proof.
  intros Hfs Hb He.
  split; [|split; [now apply fix_error_references_eq | apply main_runs]].
  rewrite <- segments_out. unfold segments. rewrite Hb.
  rewrite map_app, concat_app. cbn [map concat].
  change (Outside ?t :: ?l) with ([Outside t] ++ l).
  rewrite !out_text_app. unfold piece_segments at 2. cbn [snd fst].
  rewrite He. cbn [Nat.ltb Nat.leb].
  unfold out_text at 1 3. cbn [map concat seg_out].
  now rewrite !app_nil_r, <- !app_assoc.
Qed.

(** C3, as the code has it.  The new text is the first piece, then for
    every header the fixed text [catch (_error) {] (not the header as it
    stands in the input), the rewritten body and the rest of the piece: all
    text outside the headers and the body spans is reproduced as it is, and
    so is a header that is written exactly [catch (_error) {]. *)
Theorem frame_outside_headers_and_bodies (content : text) :
  src_text (segments content) = content
  /\ out_text (segments content) = fst (rewrite content)
  /\ map fst (blocks content) = re_findall catch_pattern content
  /\ (Forall (fun h => h = header) (re_findall catch_pattern content) ->
      fst (rewrite content) = frame_text (segments content)).
Proof.
  split; [apply segments_src|]. split; [apply segments_out|].
  split; [apply blocks_headers|].
  intros Hh. rewrite <- segments_out. unfold segments, out_text, frame_text.
  cbn [map concat seg_out seg_frame]. f_equal.
  rewrite <- blocks_headers in Hh. rewrite Forall_map in Hh.
  induction Hh as [|hp l Hhp Hl IH]; [reflexivity|].
  cbn [map concat]. rewrite !map_app, !concat_app, IH. f_equal.
  unfold piece_segments.
  destruct (Nat.ltb 0 (find_end (snd hp)));
    cbn [map concat seg_out seg_frame]; now rewrite Hhp.
Qed.

(** How the script cuts a block that holds a block.  In scenario B the
    inner [throw error;] is rewritten and the count is 1.  The text of an
    outer block up to a nested header is a piece of its own in which the
    scan finds no end: with [o] the outer text before the nested header,
    [i] the inner body and [t] the text after the inner closing brace, the
    rules are applied to [i] and to nothing else, and the count is 1 when
    [i] changed and 0 otherwise. *)
Theorem nested_block_inner_only (o i t : text) :
  rewrite (txt "catch (_error) { try { doX(); } catch (_error) { throw error; } }")
  = (txt "catch (_error) { try { doX(); } catch (_error) { throw _error; } }",
     1%Z)
  /\ (clean o -> clean (i ++ chr "}" :: t) ->
      find_end o = 0 -> balanced i = true ->
      rewrite (header ++ o ++ header ++ i ++ chr "}" :: t)
      = (header ++ o ++ header ++ fix_body i ++ chr "}" :: t,
         if text_eqb (fix_body i) i then 0%Z else 1%Z)).
Proof.
  split; [vm_compute; reflexivity|].
  intros Ho Hi He Hb.
  assert (Hdoc : header ++ o ++ header ++ i ++ chr "}" :: t
                 = [] ++ concat (map (fun p : text => header ++ p)
                                   [o; i ++ chr "}" :: t])).
  { cbn [map concat app]. now rewrite app_nil_r, <- !app_assoc. }
  rewrite rewrite_pieces, Hdoc.
  rewrite re_split_assembled;
    [|reflexivity | repeat constructor; assumption].
  cbn [hd tl map concat filter app].
  assert (Fo : fix_piece o = o /\ piece_changed o = false).
  { unfold fix_piece, piece_changed. rewrite He. now split. }
  destruct Fo as [Fo Co]. rewrite Fo, Co.
  assert (Fi : fix_piece (i ++ chr "}" :: t) = fix_body i ++ chr "}" :: t
               /\ piece_changed (i ++ chr "}" :: t)
                  = negb (text_eqb (fix_body i) i)).
  { destruct i as [|c i].
    - split; reflexivity.
    - assert (Hf : find_end ((c :: i) ++ chr "}" :: t) = length (c :: i)).
      { unfold find_end. rewrite brace_go_close; [reflexivity|].
        apply (bal_depth (c :: i) 0 1 Hb). lia. }
      unfold fix_piece, piece_changed. rewrite Hf.
      change (Nat.ltb 0 (length (c :: i))) with true. cbv iota.
      rewrite firstn_app, Nat.sub_diag, firstn_all, skipn_app, Nat.sub_diag,
        skipn_all.
      cbn [firstn skipn]. rewrite !app_nil_r. now split. }
  destruct Fi as [Fi Ci]. rewrite Fi, Ci.
  rewrite app_nil_r, <- !app_assoc.
  f_equal. now destruct (text_eqb (fix_body i) i).
Qed.

(** C5, as the code has it.  A second pass counts no changed body, for
    every document.  It gives the same text again when every header match
    of the new text is written [catch (_error) {]; so it does when the new
    text has as many header matches as the old one (the rules made no new
    header). *)
Theorem rewrite_twice (content : text) :
  snd (rewrite (fst (rewrite content))) = 0%Z
  /\ (Forall (fun h => h = header)
        (re_findall catch_pattern (fst (rewrite content))) ->
      rewrite (fst (rewrite content)) = (fst (rewrite content), 0%Z))
  /\ (length (re_split catch_pattern (fst (rewrite content)))
      = length (re_split catch_pattern content) ->
      rewrite (fst (rewrite content)) = (fst (rewrite content), 0%Z)).
Proof.
  split; [apply second_count|]. split.
  { intros H. pose proof (second_count content) as Hn.
    pose proof (unchanged_text _ Hn H) as Ht.
    destruct (rewrite (fst (rewrite content))) as [t n].
    cbn [fst snd] in *. now subst. }
  rewrite (rewrite_pieces content). cbn [fst].
  pose proof (pieces_not_nil (scan catch_pattern None content)) as Hn.
  fold (re_split catch_pattern content) in Hn.
  destruct (re_split catch_pattern content) as [|g ps]; [congruence|].
  cbn [hd tl length]. clear Hn.
  rewrite <- (map_map fix_piece (fun p : text => header ++ p)).
  rewrite <- (length_map fix_piece ps). intros H.
  destruct (assembled_clean g (map fix_piece ps) H) as [Hg Hps].
  rewrite rewrite_pieces, (re_split_assembled g _ Hg Hps).
  cbn [hd tl]. f_equal.
  - f_equal. rewrite !map_map. f_equal. apply map_ext.
    intros p. f_equal. apply fix_piece_idem.
  - assert (Hf : filter piece_changed (map fix_piece ps) = []).
    { clear. induction ps as [|p ps IH]; [reflexivity|].
      cbn [map filter]. now rewrite (proj2 (fix_piece_idem p)). }
    now rewrite Hf.
Qed.

(** C6, as the code has it.  The write is gated on the text, not on the
    count: a file without a match is not written and gives 0; a file is
    written exactly when the new text differs from the old one, which
    happens with a count of 0 when a header is not written
    [catch (_error) {]; with every header written so and a count of 0 the
    text is the old one and nothing is written. *)
Theorem write_gated_on_text (fs : files) (p : path) (content : text) :
  fs p = Some content ->
  (re_findall catch_pattern content = [] ->
   rewrite content = (content, 0%Z)
   /\ fix_error_references fs p = Some (fs, 0%Z))
  /\ (fst (rewrite content) = content ->
      fix_error_references fs p = Some (fs, 0%Z))
  /\ (fst (rewrite content) <> content ->
      fix_error_references fs p
      = Some (write_file fs p (fst (rewrite content)),
              snd (rewrite content)))
  /\ (snd (rewrite content) = 0%Z ->
      Forall (fun h => h = header) (re_findall catch_pattern content) ->
      fst (rewrite content) = content).
Proof.
  intros Hfs. pose proof (fix_error_references_eq fs p content Hfs) as Hr.
  assert (Hsame : fst (rewrite content) = content ->
                  fix_error_references fs p = Some (fs, 0%Z)).
  { intros E. rewrite Hr, E. now rewrite text_eqb_refl. }
  split; [|split; [exact Hsame|split]].
  - intros Hm.
    assert (E : rewrite content = (content, 0%Z)).
    { rewrite rewrite_pieces. unfold re_findall in Hm.
      unfold re_split. rewrite (pieces_plain _ Hm). cbn [hd tl map concat
        filter length]. unfold spell. now rewrite scan_spells, app_nil_r. }
    split; [exact E|]. apply Hsame. now rewrite E.
  - intros Hne. rewrite Hr.
    apply text_eqb_neq in Hne. now rewrite Hne.
  - apply unchanged_text.
Qed.

(** C7. The body rewriter is five replacements of a literal, member
    access, sole argument, second argument, [throw] and [return], done in
    this order, each on the text the one before it gave: the stages [s1]
    to [s5] below are the five [re.sub] calls of the script, and the last
    is the rewritten body.  What a rule wrote is there for the rules after
    it: every stage is the stage before it with underscores put in, and
    once a rule has run its pattern has no match in any later stage. *)
Theorem rules_in_order (catch_body : text) :
  let s1 := replace_all true (txt "error.") (txt "_error.") catch_body in
  let s2 := replace_all false (txt "(error)") (txt "(_error)") s1 in
  let s3 := replace_all false (txt ", error)") (txt ", _error)") s2 in
  let s4 := replace_all false (txt "throw error;") (txt "throw _error;") s3 in
  let s5 :=
    replace_all false (txt "return error;") (txt "return _error;") s4 in
  fix_body catch_body = s5
  /\ (s1 = re_sub pat_member (txt "_error.") catch_body
      /\ s2 = re_sub pat_paren (txt "(_error)") s1
      /\ s3 = re_sub pat_second (txt ", _error)") s2
      /\ s4 = re_sub pat_throw (txt "throw _error;") s3
      /\ s5 = re_sub pat_return (txt "return _error;") s4)
  /\ (inserts s1 catch_body /\ inserts s2 s1 /\ inserts s3 s2
      /\ inserts s4 s3 /\ inserts s5 s4)
  /\ Forall (fun s => re_findall pat_member s = []) [s1; s2; s3; s4; s5]
  /\ Forall (fun s => re_findall pat_paren s = []) [s2; s3; s4; s5]
  /\ Forall (fun s => re_findall pat_second s = []) [s3; s4; s5]
  /\ Forall (fun s => re_findall pat_throw s = []) [s4; s5]
  /\ re_findall pat_return s5 = [].
Proof.
  intros s1 s2 s3 s4 s5.
  assert (E1 : s1 = rule_sub member None catch_body)
    by exact (eq_sym (rule_sub_replace member catch_body None)).
  assert (E2 : s2 = rule_sub paren None s1)
    by exact (eq_sym (rule_sub_replace paren s1 None)).
  assert (E3 : s3 = rule_sub second None s2)
    by exact (eq_sym (rule_sub_replace second s2 None)).
  assert (E4 : s4 = rule_sub throw None s3)
    by exact (eq_sym (rule_sub_replace throw s3 None)).
  assert (E5 : s5 = rule_sub return_ None s4)
    by exact (eq_sym (rule_sub_replace return_ s4 None)).
  clearbody s1 s2 s3 s4 s5.
  assert (I1 : In member rules) by (cbn; tauto).
  assert (I2 : In paren rules) by (cbn; tauto).
  assert (I3 : In second rules) by (cbn; tauto).
  assert (I4 : In throw rules) by (cbn; tauto).
  assert (I5 : In return_ rules) by (cbn; tauto).
  assert (M1 : settled member None s1)
    by (rewrite E1; now apply settled_made).
  assert (M2 : settled member None s2)
    by (rewrite E2; apply settled_kept; auto; discriminate).
  assert (M3 : settled member None s3)
    by (rewrite E3; apply settled_kept; auto; discriminate).
  assert (M4 : settled member None s4)
    by (rewrite E4; apply settled_kept; auto; discriminate).
  assert (M5 : settled member None s5)
    by (rewrite E5; apply settled_kept; auto; discriminate).
  assert (P2 : settled paren None s2)
    by (rewrite E2; now apply settled_made).
  assert (P3 : settled paren None s3)
    by (rewrite E3; apply settled_kept; auto; discriminate).
  assert (P4 : settled paren None s4)
    by (rewrite E4; apply settled_kept; auto; discriminate).
  assert (P5 : settled paren None s5)
    by (rewrite E5; apply settled_kept; auto; discriminate).
  assert (S3 : settled second None s3)
    by (rewrite E3; now apply settled_made).
  assert (S4 : settled second None s4)
    by (rewrite E4; apply settled_kept; auto; discriminate).
  assert (S5 : settled second None s5)
    by (rewrite E5; apply settled_kept; auto; discriminate).
  assert (T4 : settled throw None s4)
    by (rewrite E4; now apply settled_made).
  assert (T5 : settled throw None s5)
    by (rewrite E5; apply settled_kept; auto; discriminate).
  assert (R5 : settled return_ None s5)
    by (rewrite E5; now apply settled_made).
  split; [rewrite E5, E4, E3, E2, E1; apply fix_body_rules|].
  split; [repeat split; assumption|].
  split.
  { rewrite E1 at 1. rewrite E2 at 1. rewrite E3 at 1. rewrite E4 at 1.
    rewrite E5. repeat split; apply rule_sub_inserts. }
  split.
  { repeat constructor;
      [exact (settled_no_match member _ None M1)
      |exact (settled_no_match member _ None M2)
      |exact (settled_no_match member _ None M3)
      |exact (settled_no_match member _ None M4)
      |exact (settled_no_match member _ None M5)]. }
  split.
  { repeat constructor;
      [exact (settled_no_match paren _ None P2)
      |exact (settled_no_match paren _ None P3)
      |exact (settled_no_match paren _ None P4)
      |exact (settled_no_match paren _ None P5)]. }
  split.
  { repeat constructor;
      [exact (settled_no_match second _ None S3)
      |exact (settled_no_match second _ None S4)
      |exact (settled_no_match second _ None S5)]. }
  split.
  { repeat constructor;
      [exact (settled_no_match throw _ None T4)
      |exact (settled_no_match throw _ None T5)]. }
  exact (settled_no_match return_ _ None R5).
Qed.

(** C8. No rule matches at an occurrence of [_error] or at the [error]
    inside it, and every occurrence of [_error] in a body stands in the
    rewritten body as it is, after the rewritten text before it. *)
Theorem new_identifier_kept (pre post : text) (prev : option char) :
  Forall (fun pat =>
            match_here pat prev (txt "_error" ++ post) = None
            /\ match_here pat (Some (chr "_")) (txt "error" ++ post) = None)
         [pat_member; pat_paren; pat_second; pat_throw; pat_return]
  /\ exists post',
       fix_body (pre ++ txt "_error" ++ post)
       = fix_body pre ++ txt "_error" ++ post'.
Proof.
  split; [|apply fix_body_new].
  repeat constructor.
  change (match_here pat_member prev (txt "_error" ++ post))
    with (if at_boundary prev (Some (chr "_")) then @None nat else None).
  now destruct (at_boundary prev (Some (chr "_"))).
Qed.

(** C9. The scan counts braces up and down from 1 and gives the position of
    the first closing brace at which the count is 0; it gives 0 when there
    is none; and after a text of complete brace pairs, nested blocks with
    the same header among them, that position is the closing brace after
    the text, not one inside it. *)
Theorem find_end_matching_brace (part b r : text) (j : nat) :
  (nth_error part j = Some (chr "}") ->
   (1 + net (firstn (S j) part) = 0)%Z ->
   (forall k, k < j -> (1 + net (firstn (S k) part) <> 0)%Z) ->
   find_end part = j)
  /\ ((forall k, k < length part ->
         (1 + net (firstn (S k) part) <> 0)%Z) ->
      find_end part = 0)
  /\ (balanced b = true -> find_end (b ++ chr "}" :: r) = length b).
Proof.
  split; [|split].
  - intros Hj H0 Hk.
    destruct (nth_error_split_at part j _ Hj) as [Hs Hf].
    assert (Hlen : length (firstn j part) = j).
    { apply firstn_length_le. apply Nat.lt_le_incl.
      apply nth_error_Some. congruence. }
    assert (Hd : depth_after 1 (firstn j part) = Some 1%Z).
    { rewrite depth_after_net.
      - f_equal. rewrite Hf, net_app in H0. cbn [net] in H0.
        change (N.eqb (chr "}") (chr "{")) with false in H0.
        change (N.eqb (chr "}") (chr "}")) with true in H0. lia.
      - intros k Hlt. rewrite Hlen in Hlt.
        rewrite firstn_firstn. replace (Nat.min (S k) j) with (S k) by lia.
        now apply Hk. }
    rewrite Hs. unfold find_end.
    rewrite (brace_go_close _ _ _ _ Hd), Hlen. reflexivity.
  - intros Hk. unfold find_end.
    apply (brace_go_open part 1 (1 + net part) 0).
    now apply depth_after_net.
  - intros Hb. unfold find_end. rewrite brace_go_close; [reflexivity|].
    apply (bal_depth b 0 1 Hb). lia.
Qed.

(** C10. An [error] that stands in none of the five contexts is left as it
    is, after the rewritten text before it: the first of two arguments, the
    right side of an assignment, [error] with a blank before the dot and
    [throw error] without a semicolon among them. *)
Theorem other_shapes_untouched (pre post : text) :
  in_shape pre post = false ->
  exists post',
    fix_body (pre ++ txt "error" ++ post)
    = fix_body pre ++ txt "error" ++ post'.
Proof. apply fix_body_old. Qed.

End Claims.

(** * Further properties of the script *)

(** ** Underscores and blanks *)

Lemma underscores_app (a b : text) :
  underscores (a ++ b) = underscores a + underscores b.
Proof. unfold underscores. now rewrite filter_app, length_app. Qed.

Lemma thins_underscores (t s : text) :
  thins t s -> underscores t + length s = underscores s + length t.
Proof.
  unfold underscores.
  induction 1 as [|c t s H IH|t s H IH]; [reflexivity| |].
  - cbn [filter length].
    destruct (N.eqb (chr "_") c); cbn [length]; lia.
  - cbn [filter]. rewrite N.eqb_refl. cbn [length]. lia.
Qed.

Lemma thins_same_length (t s : text) :
  thins t s -> length t = length s -> t = s.
Proof.
  induction 1 as [|c t s H IH|t s H IH]; intros Hl.
  - reflexivity.
  - f_equal. apply IH. simpl in Hl. lia.
  - apply thins_length in H. simpl in Hl. lia.
Qed.

Lemma thins_filter (f : char -> bool) (t s : text) :
  f (chr "_") = false -> thins t s -> filter f t = filter f s.
Proof.
  intros Hf. induction 1 as [|c t s H IH|t s H IH]; cbn [filter].
  - reflexivity.
  - now rewrite IH.
  - now rewrite Hf.
Qed.

Section Further.

Context {U : UnicodeTables}.

(** What a match holds besides blanks are the literal characters of the
    pattern. *)
Lemma match_here_filter (f : char -> bool) :
  (forall x, is_space x = true -> f x = false) ->
  forall r prev s n,
    match_here r prev s = Some n ->
    filter f (firstn n s) = filter f (lits r).
Proof.
  intros Hf. induction r as [|a r IH]; intros prev s n H.
  - cbn [match_here] in H. injection H as <-. reflexivity.
  - destruct a as [c| |].
    + destruct s as [|x s]; [discriminate|].
      rewrite match_here_ch_cons in H.
      destruct (N.eqb x c) eqn:E; [|discriminate].
      apply N.eqb_eq in E. subst x.
      destruct (match_here r (Some c) s) as [m|] eqn:E'; [|discriminate].
      injection H as <-.
      change (lits (Ch c :: r)) with (c :: lits r).
      cbn [firstn filter]. now rewrite (IH _ _ _ E').
    + change (lits (Spaces :: r)) with (lits r).
      revert prev n H. induction s as [|x s IHs]; intros prev n H.
      * rewrite match_here_spaces_nil in H. now apply (IH prev).
      * rewrite match_here_spaces_cons in H.
        destruct (is_space x) eqn:Ex; [|now apply (IH prev)].
        destruct (match_here (Spaces :: r) (Some x) s) as [m|] eqn:E'.
        -- injection H as <-. cbn [firstn filter]. rewrite (Hf x Ex).
           now apply (IHs (Some x)).
        -- now apply (IH prev).
    + change (lits (WordB :: r)) with (lits r).
      cbn [match_here] in H.
      destruct (at_boundary prev (hd_error s)); [|discriminate].
      now apply (IH prev).
Qed.

Lemma scan_matches_all (P : text -> Prop) :
  (forall prev s n,
      match_here catch_pattern prev s = Some n -> P (firstn n s)) ->
  forall (s : text) prev, Forall P (matches (scan catch_pattern prev s)).
Proof.
  intros HP. induction s as [s IH] using text_len_ind. intros prev.
  destruct s as [|c s]; [constructor|].
  destruct (scan_cases catch_pattern prev c s (catch_positive _ _))
    as [[_ ->]|(m & t & Hm & Hs & Hmatch & ->)]; cbn [matches].
  - apply IH. simpl. lia.
  - constructor.
    + rewrite Hs in Hmatch. apply HP in Hmatch.
      now rewrite firstn_app, Nat.sub_diag, firstn_all, app_nil_r in Hmatch.
    + apply IH. rewrite Hs, length_app.
      destruct m; [congruence | simpl; lia].
Qed.

Lemma space_not_underscore (x : char) :
  is_space x = true -> N.eqb (chr "_") x = false.
Proof.
  intros H. destruct (N.eqb (chr "_") x) eqn:E; [|reflexivity].
  apply N.eqb_eq in E. subst x. vm_compute in H. discriminate.
Qed.

(** A header as it stands in a text holds one underscore. *)
Lemma headers_underscores (s : text) (prev : option char) :
  Forall (fun m => underscores m = 1) (matches (scan catch_pattern prev s)).
Proof.
  apply scan_matches_all. intros prev' s' n H. unfold underscores.
  cbv beta.
  etransitivity;
    [apply (f_equal (@length char));
     exact (match_here_filter _ space_not_underscore _ _ _ _ H)
    |reflexivity].
Qed.

(** A header as it stands in a text is [catch(_error){] with blanks. *)
Lemma headers_filter (f : char -> bool) (s : text) (prev : option char) :
  (forall x, is_space x = true -> f x = false) ->
  Forall (fun m => filter f m = filter f header)
         (matches (scan catch_pattern prev s)).
Proof.
  intros Hf. apply scan_matches_all. intros prev' s' n H. cbv beta.
  rewrite (match_here_filter f Hf _ _ _ _ H).
  symmetry.
  pose proof (match_here_filter f Hf _ _ _ _ (catch_header None [])) as Hh.
  now rewrite app_nil_r, firstn_all in Hh.
Qed.

Lemma fix_piece_thins (p : text) : thins (fix_piece p) p.
Proof.
  unfold fix_piece. destruct (Nat.ltb 0 (find_end p)); [|apply thins_refl].
  pose proof (firstn_skipn (find_end p) p) as E.
  remember (firstn (find_end p) p) as b eqn:Eb.
  remember (skipn (find_end p) p) as r eqn:Er. clear Eb Er.
  rewrite <- E. apply thins_app; [apply fix_body_thins | apply thins_refl].
Qed.

Lemma fix_piece_underscores (p : text) :
  underscores p + (if piece_changed p then 1 else 0)
  <= underscores (fix_piece p).
Proof.
  unfold fix_piece, piece_changed.
  destruct (Nat.ltb 0 (find_end p)); cbn [andb]; [|lia].
  pose proof (firstn_skipn (find_end p) p) as Ep.
  remember (firstn (find_end p) p) as b eqn:Eb.
  remember (skipn (find_end p) p) as r eqn:Er. clear Eb Er.
  rewrite <- Ep. rewrite !underscores_app.
  pose proof (fix_body_thins b) as Ht.
  pose proof (thins_underscores _ _ Ht) as Hu.
  pose proof (thins_length _ _ Ht) as Hl.
  destruct (text_eqb (fix_body b) b) eqn:E; cbn [negb]; [lia|].
  apply text_eqb_neq in E.
  assert (length (fix_body b) <> length b)
    by (intros Hlen; now apply E, thins_same_length).
  lia.
Qed.

Lemma assembled_underscores (ms ps : list text) :
  Forall (fun m => underscores m = 1) ms -> length ms = length ps ->
  underscores (concat (map (fun hp : text * text => fst hp ++ snd hp)
                         (combine ms ps)))
  + length (filter piece_changed ps)
  <= underscores (concat (map (fun p : text => header ++ fix_piece p) ps)).
Proof.
  intros Hm. revert ps.
  induction Hm as [|m ms Hm1 Hms IH]; intros [|p ps] Hl;
    try discriminate; [cbn; lia|].
  injection Hl as Hl. specialize (IH ps Hl).
  cbn [combine map concat fst snd filter].
  rewrite !underscores_app, Hm1.
  pose proof (fix_piece_underscores p) as Hp.
  change (underscores header) with 1.
  destruct (piece_changed p); cbn [length]; lia.
Qed.

(** The document as its first piece, its headers and its other pieces. *)
Lemma document_pieces (content : text) :
  content
  = hd [] (re_split catch_pattern content)
    ++ concat (map (fun hp : text * text => fst hp ++ snd hp)
                 (combine (re_findall catch_pattern content)
                    (tl (re_split catch_pattern content))))
  /\ length (re_findall catch_pattern content)
     = length (tl (re_split catch_pattern content)).
Proof.
  unfold re_split, re_findall. split.
  - rewrite <- pieces_spell. unfold spell. now rewrite scan_spells.
  - pose proof (pieces_length (scan catch_pattern None content)) as Hl.
    destruct (pieces (scan catch_pattern None content)); [discriminate|].
    cbn [tl length] in *. lia.
Qed.

(** Every changed body gives the new text an underscore more. *)
Lemma new_underscores (content : text) :
  (Z.of_nat (underscores content) + snd (rewrite content)
   <= Z.of_nat (underscores (fst (rewrite content))))%Z.
Proof.
  destruct (document_pieces content) as [Hc Hl].
  pose proof (assembled_underscores _ _
                (headers_underscores content None) Hl) as H.
  pose proof (f_equal underscores Hc) as Hu. rewrite underscores_app in Hu.
  rewrite rewrite_pieces. cbn [fst snd]. rewrite underscores_app.
  unfold re_findall in *. lia.
Qed.

Lemma changed_count_changed_text (content : text) :
  snd (rewrite content) <> 0%Z -> fst (rewrite content) <> content.
Proof.
  intros Hn E. pose proof (new_underscores content) as H.
  rewrite E in H.
  assert (0 <= snd (rewrite content))%Z
    by (rewrite rewrite_pieces; cbn [snd]; lia).
  lia.
Qed.

(** X1. The value returned is [changes_made] in both branches: the
    [return 0] of the branch that does not write is reached only when no
    body changed, and a file with a changed body is written. *)
Theorem returns_changes_made (fs : files) (p : path) (content : text) :
  fs p = Some content ->
  fix_error_references fs p
  = Some (if text_eqb (fst (rewrite content)) content then fs
          else write_file fs p (fst (rewrite content)),
          snd (rewrite content))
  /\ ((0 < snd (rewrite content))%Z ->
      fix_error_references fs p
      = Some (write_file fs p (fst (rewrite content)),
              snd (rewrite content))).
Proof.
  intros Hfs. rewrite (fix_error_references_eq fs p content Hfs).
  destruct (text_eqb (fst (rewrite content)) content) eqn:E.
  - apply text_eqb_eq in E.
    assert (Hz : snd (rewrite content) = 0%Z).
    { destruct (Z.eq_dec (snd (rewrite content)) 0) as [Hz|Hz];
        [exact Hz|].
      now apply changed_count_changed_text in Hz. }
    rewrite Hz. split; [reflexivity | lia].
  - split; reflexivity.
Qed.

(** X2. [changes_made] is never negative and never more than the number of
    headers in the file, and the new text has at least that many
    underscores more than the old one. *)
Theorem changes_made_bounds (content : text) :
  (0 <= snd (rewrite content)
   <= Z.of_nat (length (re_findall catch_pattern content)))%Z
  /\ (Z.of_nat (underscores content) + snd (rewrite content)
      <= Z.of_nat (underscores (fst (rewrite content))))%Z.
Proof.
  split; [|apply new_underscores].
  destruct (document_pieces content) as [_ Hl].
  rewrite rewrite_pieces. cbn [snd]. rewrite Hl.
  pose proof (filter_length_le piece_changed
                (tl (re_split catch_pattern content))).
  lia.
Qed.

Lemma assembled_filter (f : char -> bool) (ms ps : list text) :
  f (chr "_") = false ->
  Forall (fun m => filter f m = filter f header) ms ->
  length ms = length ps ->
  filter f (concat (map (fun p : text => header ++ fix_piece p) ps))
  = filter f (concat (map (fun hp : text * text => fst hp ++ snd hp)
                        (combine ms ps))).
Proof.
  intros Hf Hm. revert ps.
  induction Hm as [|m ms Hm1 Hms IH]; intros [|p ps] Hl;
    try discriminate; [reflexivity|].
  injection Hl as Hl. specialize (IH ps Hl).
  cbn [combine map concat fst snd].
  rewrite !filter_app, IH, Hm1.
  now rewrite (thins_filter f _ _ Hf (fix_piece_thins p)).
Qed.

Lemma rewrite_filter (f : char -> bool) (content : text) :
  (forall x, is_space x = true -> f x = false) ->
  f (chr "_") = false ->
  filter f (fst (rewrite content)) = filter f content.
Proof.
  intros Hs Hf. destruct (document_pieces content) as [Hc Hl].
  etransitivity; [|symmetry; apply (f_equal (filter f)); exact Hc].
  rewrite rewrite_pieces. cbn [fst]. rewrite !filter_app. f_equal.
  apply assembled_filter; [exact Hf | | exact Hl].
  now apply headers_filter.
Qed.

Lemma net_filter (f : char -> bool) (t : text) :
  f (chr "{") = true -> f (chr "}") = true -> net (filter f t) = net t.
Proof.
  intros Ho Hc. induction t as [|c t IH]; [reflexivity|].
  cbn [filter net].
  destruct (N.eqb c (chr "{")) eqn:Eo.
  - apply N.eqb_eq in Eo. subst c. rewrite Ho. cbn [net].
    rewrite N.eqb_refl. now rewrite IH.
  - destruct (N.eqb c (chr "}")) eqn:Ec.
    + apply N.eqb_eq in Ec. subst c. rewrite Hc. cbn [net].
      rewrite Eo, N.eqb_refl. now rewrite IH.
    + destruct (f c); [|lia]. cbn [net]. rewrite Eo, Ec. now rewrite IH.
Qed.

(** X3. The script changes blanks and underscores only: without them the
    new text is the old one, and the braces of the new text are the braces
    of the old one. *)
Theorem only_blanks_and_underscores (content : text) :
  squash (fst (rewrite content)) = squash content
  /\ filter (fun c => N.eqb c (chr "{") || N.eqb c (chr "}"))
       (fst (rewrite content))
     = filter (fun c => N.eqb c (chr "{") || N.eqb c (chr "}")) content
  /\ net (fst (rewrite content)) = net content.
Proof.
  assert (Hsq : squash (fst (rewrite content)) = squash content).
  { unfold squash. apply rewrite_filter.
    - intros x Hx. now rewrite Hx.
    - now rewrite N.eqb_refl, orb_true_r. }
  split; [exact Hsq|].
  assert (Hbr : filter (fun c => N.eqb c (chr "{") || N.eqb c (chr "}"))
                  (fst (rewrite content))
                = filter (fun c => N.eqb c (chr "{") || N.eqb c (chr "}"))
                    content).
  { apply rewrite_filter; [|reflexivity].
    intros x Hx.
    destruct (N.eqb x (chr "{")) eqn:Eo;
      [apply N.eqb_eq in Eo; subst x; vm_compute in Hx; discriminate|].
    destruct (N.eqb x (chr "}")) eqn:Ec;
      [apply N.eqb_eq in Ec; subst x; vm_compute in Hx; discriminate|].
    reflexivity. }
  split; [exact Hbr|].
  rewrite <- (net_filter (fun c => N.eqb c (chr "{") || N.eqb c (chr "}"))
                (fst (rewrite content)) eq_refl eq_refl).
  rewrite <- (net_filter (fun c => N.eqb c (chr "{") || N.eqb c (chr "}"))
                content eq_refl eq_refl).
  exact (f_equal net Hbr).
Qed.

(** ** Underscores before [error], and what is left to do *)

Lemma fix_body_inserts (b : text) : inserts (fix_body b) b.
Proof.
  rewrite fix_body_rules.
  repeat (eapply inserts_trans; [apply rule_sub_inserts|]).
  apply inserts_refl.
Qed.

Lemma fix_piece_inserts (p : text) : inserts (fix_piece p) p.
Proof.
  unfold fix_piece. destruct (Nat.ltb 0 (find_end p)); [|apply inserts_refl].
  pose proof (firstn_skipn (find_end p) p) as E.
  remember (firstn (find_end p) p) as b eqn:Eb.
  remember (skipn (find_end p) p) as r eqn:Er. clear Eb Er.
  rewrite <- E.
  apply inserts_app; [apply fix_body_inserts | apply inserts_refl].
Qed.

Lemma assembled_inserts (ms ps : list text) :
  Forall (fun m => m = header) ms -> length ms = length ps ->
  inserts (concat (map (fun p : text => header ++ fix_piece p) ps))
          (concat (map (fun hp : text * text => fst hp ++ snd hp)
                     (combine ms ps))).
Proof.
  intros Hm. revert ps.
  induction Hm as [|m ms Hm1 Hms IH]; intros [|p ps] Hl;
    try discriminate; [constructor|].
  injection Hl as Hl. specialize (IH ps Hl). subst m.
  cbn [combine map concat fst snd]. rewrite <- !app_assoc.
  apply inserts_app; [apply inserts_refl|].
  apply inserts_app; [apply fix_piece_inserts | exact IH].
Qed.

(** X4. The rules put in underscores and do nothing else, and every
    underscore they put in stands where [error] follows in the body. *)
Theorem underscores_before_error (b : text) :
  inserts (fix_body b) b
  /\ filter (fun c => negb (N.eqb c (chr "_"))) (fix_body b)
     = filter (fun c => negb (N.eqb c (chr "_"))) b
  /\ length b <= length (fix_body b).
Proof.
  split; [apply fix_body_inserts|]. split.
  - apply thins_filter; [|apply fix_body_thins].
    now rewrite N.eqb_refl.
  - apply thins_length, fix_body_thins.
Qed.

(** X5. In a file whose headers are all written [catch (_error) {], the
    new text is the old one with underscores put in, each where [error]
    follows. *)
Theorem file_underscores_before_error (content : text) :
  Forall (fun h => h = header) (re_findall catch_pattern content) ->
  inserts (fst (rewrite content)) content.
Proof.
  intros Hh. destruct (document_pieces content) as [Hc Hl].
  rewrite rewrite_pieces. cbn [fst].
  remember (hd [] (re_split catch_pattern content)
            ++ concat (map (fun p : text => header ++ fix_piece p)
                         (tl (re_split catch_pattern content)))) as out.
  rewrite Hc. subst out.
  apply inserts_app; [apply inserts_refl|].
  now apply assembled_inserts.
Qed.

(** X6. After the five rules none of the five patterns has a match in the
    body, and the rules applied once more change nothing. *)
Theorem no_pattern_left (b : text) :
  Forall (fun pat => re_findall pat (fix_body b) = [])
         [pat_member; pat_paren; pat_second; pat_throw; pat_return]
  /\ fix_body (fix_body b) = fix_body b.
Proof.
  split; [|apply fix_body_idem].
  repeat constructor.
  - exact (settled_no_match member _ None
             (fix_body_settled member b ltac:(cbn; tauto))).
  - exact (settled_no_match paren _ None
             (fix_body_settled paren b ltac:(cbn; tauto))).
  - exact (settled_no_match second _ None
             (fix_body_settled second b ltac:(cbn; tauto))).
  - exact (settled_no_match throw _ None
             (fix_body_settled throw b ltac:(cbn; tauto))).
  - exact (settled_no_match return_ _ None
             (fix_body_settled return_ b ltac:(cbn; tauto))).
Qed.

(** A text in which no body changes is as it stays after one pass. *)
Lemma count_zero_fixed (content : text) :
  snd (rewrite content) = 0%Z ->
  rewrite (fst (rewrite content)) = (fst (rewrite content), 0%Z).
Proof.
  intros Hn. pose proof (re_split_clean content) as Hc.
  rewrite (rewrite_pieces content) in Hn |- *. cbn [fst snd] in *.
  destruct (re_split catch_pattern content) as [|g ps];
    [inversion Hc; cbn [tl hd] in *|].
  - cbn [map concat filter length] in *. rewrite app_nil_r.
    rewrite rewrite_pieces.
    change (re_split catch_pattern []) with [@nil char].
    reflexivity.
  - cbn [hd tl] in *. apply Forall_cons_iff in Hc as [Hg Hps].
    assert (Hf : filter piece_changed ps = [])
      by (destruct (filter piece_changed ps);
          [reflexivity | simpl in Hn; lia]).
    assert (Hfix : map (fun p : text => header ++ fix_piece p) ps
                   = map (fun p : text => header ++ p) ps).
    { clear -Hf. induction ps as [|p ps IH]; [reflexivity|].
      cbn [filter] in Hf.
      destruct (piece_changed p) eqn:E; [discriminate|].
      cbn [map]. now rewrite (piece_unchanged _ E), (IH Hf). }
    rewrite Hfix.
    rewrite rewrite_pieces, (re_split_assembled g ps Hg Hps).
    cbn [hd tl fst snd]. now rewrite Hfix, Hf.
Qed.

(** X7. The text is settled after two passes: a third pass gives the text
    of the second and counts no change. *)
Theorem third_pass_fixed (content : text) :
  rewrite (fst (rewrite (fst (rewrite content))))
  = (fst (rewrite (fst (rewrite content))), 0%Z).
Proof. apply count_zero_fixed, second_count. Qed.

(** ** A run over the files *)

Lemma count_not_negative (content : text) : (0 <= snd (rewrite content))%Z.
Proof. rewrite rewrite_pieces. cbn [snd]. lia. Qed.

Lemma same_text_count_zero (content : text) :
  fst (rewrite content) = content -> snd (rewrite content) = 0%Z.
Proof.
  intros E. destruct (Z.eq_dec (snd (rewrite content)) 0) as [Hz|Hz];
    [exact Hz|].
  now apply changed_count_changed_text in Hz.
Qed.

(** What a call returns and what it leaves in the store. *)
Lemma call_effect (fs : files) (p : path) (content : text) :
  fs p = Some content ->
  exists fs',
    fix_error_references fs p = Some (fs', snd (rewrite content))
    /\ forall q, fs' q = if String.eqb q p
                         then Some (fst (rewrite content)) else fs q.
Proof.
  intros Hfs. rewrite (fix_error_references_eq fs p content Hfs).
  destruct (text_eqb (fst (rewrite content)) content) eqn:E.
  - apply text_eqb_eq in E. rewrite (same_text_count_zero content E).
    exists fs. split; [reflexivity|]. intros q.
    destruct (String.eqb q p) eqn:Eq; [|reflexivity].
    apply String.eqb_eq in Eq. subst q. now rewrite E.
  - exists (write_file fs p (fst (rewrite content))). now split.
Qed.

Lemma main_step_some (fs : files) (t n : Z) (p : path) (content : text) :
  fs p = Some content ->
  exists fs',
    main_step (Some (fs, t, n)) p
    = Some (fs', (t + snd (rewrite content))%Z,
            (n + if Z.ltb 0 (snd (rewrite content)) then 1 else 0)%Z)
    /\ forall q, fs' q = if String.eqb q p
                         then Some (fst (rewrite content)) else fs q.
Proof.
  intros Hfs. destruct (call_effect fs p content Hfs) as (fs' & Hc & Hq).
  exists fs'. split; [|exact Hq]. cbn [main_step]. rewrite Hc.
  pose proof (count_not_negative content) as H0.
  destruct (Z.ltb 0 (snd (rewrite content))) eqn:E; [reflexivity|].
  apply Z.ltb_ge in E.
  replace (snd (rewrite content)) with 0%Z by lia.
  now rewrite !Z.add_0_r.
Qed.

Lemma main_step_none (fs : files) (t n : Z) (p : path) :
  fs p = None -> main_step (Some (fs, t, n)) p = None.
Proof.
  intros Hfs. cbn [main_step]. unfold fix_error_references.
  now rewrite Hfs.
Qed.

Lemma run_none (js_files : list path) : run None js_files = None.
Proof. induction js_files as [|p l IH]; [reflexivity | exact IH]. Qed.

Lemma run_cons (st : option (files * Z * Z)) (p : path) (l : list path) :
  run st (p :: l) = run (main_step st p) l.
Proof. reflexivity. Qed.

Lemma run_fails_iff (js_files : list path) :
  forall fs t n,
    run (Some (fs, t, n)) js_files = None
    <-> exists q, In q js_files /\ fs q = None.
Proof.
  induction js_files as [|p l IH]; intros fs t n.
  - split; [discriminate | intros (q & [] & _)].
  - rewrite run_cons. destruct (fs p) as [c|] eqn:E.
    + destruct (main_step_some fs t n p c E) as (fs' & -> & Hfs').
      rewrite IH. split.
      * intros (q & Hq & Hn). exists q. split; [now right|].
        rewrite Hfs' in Hn.
        destruct (String.eqb q p); [discriminate | exact Hn].
      * intros (q & [<-|Hq] & Hn); [congruence|].
        exists q. split; [assumption|]. rewrite Hfs'.
        destruct (String.eqb q p) eqn:Eq; [|assumption].
        apply String.eqb_eq in Eq. subst q. congruence.
    + rewrite (main_step_none fs t n p E), run_none.
      split; [|reflexivity]. intros _. exists p. split; [now left | exact E].
Qed.

(** X8. A run fails exactly when a file of the list cannot be read; no
    call of the run makes a file unreadable for a later one. *)
Theorem main_fails_iff (fs : files) (js_files : list path) :
  main fs js_files = None <-> exists q, In q js_files /\ fs q = None.
Proof. apply (run_fails_iff js_files fs 0%Z 0%Z). Qed.

Lemma run_frame (js_files : list path) :
  forall fs t n fs' t' n',
    run (Some (fs, t, n)) js_files = Some (fs', t', n') ->
    (forall q, ~ In q js_files -> fs' q = fs q)
    /\ (forall q, fs' q = None <-> fs q = None)
    /\ (0 <= n' - n <= t' - t)%Z
    /\ (n' - n <= Z.of_nat (length js_files))%Z.
Proof.
  induction js_files as [|p l IH]; intros fs t n fs' t' n' H.
  - injection H as <- <- <-. cbn [length].
    repeat split; try tauto; lia.
  - rewrite run_cons in H. destruct (fs p) as [c|] eqn:E.
    + destruct (main_step_some fs t n p c E) as (fs1 & Hs & Hfs1).
      rewrite Hs in H. destruct (IH _ _ _ _ _ _ H) as (H1 & H2 & H3 & H4).
      pose proof (count_not_negative c) as H0.
      assert (Hb : (0 <= (if Z.ltb 0 (snd (rewrite c)) then 1 else 0)
                    <= snd (rewrite c))%Z
                   /\ ((if Z.ltb 0 (snd (rewrite c)) then 1 else 0) <= 1)%Z).
      { destruct (Z.ltb 0 (snd (rewrite c))) eqn:El;
          [apply Z.ltb_lt in El|]; lia. }
      split; [|split; [|split]].
      * intros q Hq. rewrite H1 by (intros Hin; apply Hq; now right).
        rewrite Hfs1. destruct (String.eqb q p) eqn:Eq; [|reflexivity].
        apply String.eqb_eq in Eq. subst q. exfalso. apply Hq. now left.
      * intros q. rewrite H2, Hfs1.
        destruct (String.eqb q p) eqn:Eq; [|tauto].
        apply String.eqb_eq in Eq. subst q. rewrite E.
        split; discriminate.
      * lia.
      * cbn [length]. lia.
    + rewrite (main_step_none fs t n p E), run_none in H. discriminate.
Qed.

(** X9. A run leaves every file that is not in the list as it is, and it
    neither creates nor removes a file. *)
Theorem main_keeps_other_files (fs fs' : files) (js_files : list path)
    (total_changes files_changed : Z) :
  main fs js_files = Some (fs', total_changes, files_changed) ->
  (forall q, ~ In q js_files -> fs' q = fs q)
  /\ (forall q, fs' q = None <-> fs q = None).
Proof.
  intros H.
  destruct (run_frame js_files fs 0%Z 0%Z fs' _ _ H) as (H1 & H2 & _).
  now split.
Qed.

(** X10. The totals that [main] prints fit together: the number of files
    reported as changed is not negative, not more than the number of
    files, and not more than the total of the changes. *)
Theorem main_totals_consistent (fs fs' : files) (js_files : list path)
    (total_changes files_changed : Z) :
  main fs js_files = Some (fs', total_changes, files_changed) ->
  (0 <= files_changed <= total_changes)%Z
  /\ (files_changed <= Z.of_nat (length js_files))%Z.
Proof.
  intros H.
  destruct (run_frame js_files fs 0%Z 0%Z fs' _ _ H) as (_ & _ & H3 & H4).
  lia.
Qed.

Lemma not_in_existsb (q : path) (l : list path) :
  ~ In q l -> existsb (String.eqb q) l = false.
Proof.
  intros H. destruct (existsb (String.eqb q) l) eqn:E; [|reflexivity].
  apply existsb_exists in E as (x & Hx & Ex).
  apply String.eqb_eq in Ex. subst x. contradiction.
Qed.

Lemma run_totals (js_files : list path) :
  forall (fs : files) (t n : Z),
    NoDup js_files -> (forall q, In q js_files -> fs q <> None) ->
    exists fs',
      run (Some (fs, t, n)) js_files
      = Some (fs', (t + total fs js_files)%Z,
              (n + Z.of_nat (changed_files fs js_files))%Z)
      /\ forall q, fs' q = rewritten fs js_files q.
Proof.
  induction js_files as [|p l IH]; intros fs t n Hnd Hr.
  - exists fs. unfold total, changed_files. cbn [map fold_right filter length].
    rewrite !Z.add_0_r. now split.
  - inversion Hnd as [|p' l' Hp Hl]; subst.
    destruct (fs p) as [c|] eqn:E;
      [|exfalso; apply (Hr p); [now left | exact E]].
    destruct (main_step_some fs t n p c E) as (fs1 & Hs & Hfs1).
    assert (Hsame : forall q, In q l -> fs1 q = fs q).
    { intros q Hq. rewrite Hfs1.
      destruct (String.eqb q p) eqn:Eq; [|reflexivity].
      apply String.eqb_eq in Eq. subst q. contradiction. }
    assert (Hr1 : forall q, In q l -> fs1 q <> None).
    { intros q Hq. rewrite (Hsame q Hq). apply Hr. now right. }
    destruct (IH fs1 (t + snd (rewrite c))%Z
                (n + if Z.ltb 0 (snd (rewrite c)) then 1 else 0)%Z Hl Hr1)
      as (fs' & Hrun & Hfs').
    exists fs'. split.
    + rewrite run_cons, Hs, Hrun.
      assert (Hc : forall q, In q l -> count_of fs1 q = count_of fs q)
        by (intros q Hq; unfold count_of; now rewrite (Hsame q Hq)).
      assert (Ht : total fs1 l = total fs l).
      { unfold total. f_equal. now apply map_ext_in. }
      assert (Hn : changed_files fs1 l = changed_files fs l).
      { unfold changed_files. f_equal. apply filter_ext_in.
        intros q Hq. now rewrite (Hc q Hq). }
      assert (Hcp : count_of fs p = snd (rewrite c))
        by (unfold count_of; now rewrite E).
      rewrite Ht, Hn. unfold total, changed_files.
      cbn [map fold_right filter]. rewrite Hcp.
      f_equal. f_equal; [f_equal; lia|].
      destruct (Z.ltb 0 (snd (rewrite c))); cbn [length]; lia.
    + intros q. rewrite Hfs'. unfold rewritten. cbn [existsb].
      destruct (String.eqb q p) eqn:Eq.
      * apply String.eqb_eq in Eq. subst q.
        rewrite (not_in_existsb p l Hp). cbn [orb].
        rewrite Hfs1, String.eqb_refl, E. reflexivity.
      * cbn [orb]. rewrite Hfs1, Eq. reflexivity.
Qed.

(** X11. Over a list that names every file once, [main] gives every file
    of the list its new text, and it counts the sum of [changes_made] over
    the files and the number of files in which it is positive. *)
Theorem main_totals (fs : files) (js_files : list path) :
  NoDup js_files -> (forall q, In q js_files -> fs q <> None) ->
  exists fs',
    main fs js_files
    = Some (fs', total fs js_files, Z.of_nat (changed_files fs js_files))
    /\ forall q, fs' q = rewritten fs js_files q.
Proof. apply (run_totals js_files fs 0%Z 0%Z). Qed.

Lemma step_keeps_passed (fs fs1 : files) (p : path) (c : text) :
  (forall q, fs1 q = if String.eqb q p
                     then Some (fst (rewrite c)) else fs q) ->
  passed fs1 p /\ forall q, passed fs q -> passed fs1 q.
Proof.
  intros H. split.
  - exists c. now rewrite H, String.eqb_refl.
  - intros q (c0 & Hc0). unfold passed. rewrite H.
    destruct (String.eqb q p); [now exists c | now exists c0].
Qed.

Lemma run_passed (js_files : list path) :
  forall fs t n fs' t' n',
    run (Some (fs, t, n)) js_files = Some (fs', t', n') ->
    (forall q, In q js_files -> passed fs' q)
    /\ (forall q, passed fs q -> passed fs' q).
Proof.
  induction js_files as [|p l IH]; intros fs t n fs' t' n' H.
  - injection H as <- <- <-. split; [intros q [] | tauto].
  - rewrite run_cons in H. destruct (fs p) as [c|] eqn:E.
    + destruct (main_step_some fs t n p c E) as (fs1 & Hs & Hfs1).
      rewrite Hs in H. destruct (IH _ _ _ _ _ _ H) as [H1 H2].
      destruct (step_keeps_passed fs fs1 p c Hfs1) as [Hp Hk].
      split.
      * intros q [<-|Hq]; [now apply H2 | now apply H1].
      * intros q Hq. now apply H2, Hk.
    + rewrite (main_step_none fs t n p E), run_none in H. discriminate.
Qed.

Lemma run_after (js_files : list path) :
  forall (fs : files) (t n : Z),
    (forall q, In q js_files -> passed fs q) ->
    exists fs',
      run (Some (fs, t, n)) js_files = Some (fs', t, n)
      /\ (forall q, In q js_files -> fixed fs' q)
      /\ (forall q, fixed fs q -> fixed fs' q)
      /\ (forall q, passed fs q -> passed fs' q).
Proof.
  induction js_files as [|p l IH]; intros fs t n Hp.
  - exists fs. split; [reflexivity|]. split; [intros q []|]. now split.
  - destruct (Hp p (or_introl eq_refl)) as (c0 & Hc0).
    destruct (main_step_some fs t n p _ Hc0) as (fs1 & Hs & Hfs1).
    rewrite (second_count c0) in Hs. cbn [Z.ltb Z.compare] in Hs.
    rewrite !Z.add_0_r in Hs.
    destruct (step_keeps_passed fs fs1 p _ Hfs1) as [_ Hk].
    assert (Hf1 : fixed fs1 p).
    { exists (fst (rewrite (fst (rewrite c0)))). split.
      - now rewrite Hfs1, String.eqb_refl.
      - apply count_zero_fixed, second_count. }
    assert (Hkf : forall q, fixed fs q -> fixed fs1 q).
    { intros q (c & Hc & Hfix). unfold fixed. rewrite Hfs1.
      destruct (String.eqb q p) eqn:Eq; [|now exists c].
      apply String.eqb_eq in Eq. subst q.
      rewrite Hc0 in Hc. injection Hc as Hc. rewrite Hc, Hfix.
      cbn [fst]. now exists c. }
    destruct (IH fs1 t n) as (fs' & Hrun & H1 & H2 & H3).
    { intros q Hq. apply Hk, Hp. now right. }
    exists fs'. rewrite run_cons, Hs. split; [exact Hrun|].
    split; [|split].
    + intros q [<-|Hq]; [now apply H2 | now apply H1].
    + intros q Hq. now apply H2, Hkf.
    + intros q Hq. now apply H3, Hk.
Qed.

Lemma run_fixed (js_files : list path) (fs : files) (t n : Z) :
  (forall q, In q js_files -> fixed fs q) ->
  run (Some (fs, t, n)) js_files = Some (fs, t, n).
Proof.
  induction js_files as [|p l IH]; intros Hf; [reflexivity|].
  rewrite run_cons.
  destruct (Hf p (or_introl eq_refl)) as (c & Hc & Hfix).
  assert (Hs : main_step (Some (fs, t, n)) p = Some (fs, t, n)).
  { cbn [main_step]. rewrite (fix_error_references_eq fs p c Hc), Hfix.
    cbn [fst snd]. now rewrite text_eqb_refl. }
  rewrite Hs. apply IH. intros q Hq. apply Hf. now right.
Qed.

(** X12. After a run of [main], a second run over the same list reports 0
    errors in 0 files, and a third run writes nothing: it leaves the store
    of the second run as it is. *)
Theorem main_runs_settle (fs fs1 : files) (js_files : list path)
    (total_changes files_changed : Z) :
  main fs js_files = Some (fs1, total_changes, files_changed) ->
  exists fs2,
    main fs1 js_files = Some (fs2, 0%Z, 0%Z)
    /\ main fs2 js_files = Some (fs2, 0%Z, 0%Z).
Proof.
  intros H.
  destruct (run_passed js_files fs 0%Z 0%Z fs1 _ _ H) as [Hp _].
  destruct (run_after js_files fs1 0%Z 0%Z Hp) as (fs2 & Hrun & Hf & _).
  exists fs2. split; [exact Hrun|].
  now apply (run_fixed js_files fs2 0%Z 0%Z).
Qed.

End Further.

(** * create_icons.py: the shapes of an icon *)

Ltac icon_shapes :=
  cbv [Icons.create_bookmark_icon fold_left Icons.draw Icons.Image_new
       Icons.im_shapes Icons.im_mode Icons.im_size Icons.im_color app
       Icons.points Icons.within Icons.ordered Icons.rows Icons.text_rows
       flat_map Z.eqb Pos.eqb].

(** X13. For a size of at least 1 every shape of the icon lies inside the
    bookmark, the square from [margin] to [size - margin], which lies
    inside the image; the boxes of the bookmark and of the three lines are
    given with [x0 <= x1] and [y0 <= y1]. *)
Theorem icon_shapes_inside (size : Z) :
  (1 <= size)%Z ->
  (0 <= size / 8 <= size - size / 8)%Z
  /\ (size - size / 8 <= size)%Z
  /\ Forall (fun s => Icons.within (size / 8) (size - size / 8) s
                      /\ Icons.ordered s)
       (Icons.im_shapes (Icons.create_bookmark_icon size)).
Proof.
  intros H. icon_shapes.
  repeat (first [apply Forall_nil | apply Forall_cons | split]);
    cbn [fst snd]; Z.to_euclidean_division_equations; lia.
Qed.

(** X14. For a size of at least 16 the three lines that stand for text are
    drawn from top to bottom and share no row: each ends above the row in
    which the next begins. *)
Theorem icon_text_lines_apart (size : Z) :
  (16 <= size)%Z ->
  exists a0 b0 a1 b1 a2 b2,
    Icons.text_rows (Icons.create_bookmark_icon size)
    = [(a0, b0); (a1, b1); (a2, b2)]
    /\ (a0 <= b0 < a1)%Z /\ (a1 <= b1 < a2)%Z /\ (a2 <= b2)%Z.
Proof.
  intros H. icon_shapes. do 6 eexists. split; [reflexivity|].
  Z.to_euclidean_division_equations; lia.
Qed.

Lemma to_uint_not_nil (p : positive) : Pos.to_uint p <> Decimal.Nil.
Proof.
  intros E. pose proof (DecimalPos.Unsigned.of_to p) as H.
  rewrite E in H. discriminate.
Qed.

Lemma str_inj (a b : Z) : Icons.str a = Icons.str b -> a = b.
Proof.
  unfold Icons.str. intros H.
  assert (K : forall z,
             DecimalString.NilZero.int_of_string
               (DecimalString.NilZero.string_of_int (Z.to_int z))
             = Some (Z.to_int z)).
  { intros z. apply DecimalString.NilZero.isi.
    - destruct z; cbn; try discriminate.
      intros E. injection E as E. now apply to_uint_not_nil in E.
    - destruct z; cbn; try discriminate.
      intros E. injection E as E. now apply to_uint_not_nil in E. }
  pose proof (K a) as Ka. rewrite H, K in Ka. injection Ka as Ka.
  symmetry. now apply DecimalZ.to_int_inj.
Qed.

Lemma list_ascii_of_append (s t : string) :
  list_ascii_of_string (s ++ t)
  = list_ascii_of_string s ++ list_ascii_of_string t.
Proof.
  induction s as [|a s IH]; [reflexivity|].
  cbn [String.append list_ascii_of_string app]. now rewrite IH.
Qed.

Lemma append_inv_tail (s1 s2 t : string) :
  (s1 ++ t)%string = (s2 ++ t)%string -> s1 = s2.
Proof.
  intros H. apply (f_equal list_ascii_of_string) in H.
  rewrite !list_ascii_of_append in H. apply app_inv_tail in H.
  rewrite <- (string_of_list_ascii_of_string s1), H.
  apply string_of_list_ascii_of_string.
Qed.

(** X15. [main] saves, for each of the sizes 16, 48 and 128, the icon of
    that size under [icon<size>.png] and leaves every other file as it is;
    the name tells the size, so no icon is saved over another. *)
Theorem icons_saved (fs : Icons.icon_files) :
  (forall size, In size Icons.sizes ->
     Icons.main fs (Icons.icon_filename size)
     = Some (Icons.create_bookmark_icon size))
  /\ (forall name,
        (forall size, In size Icons.sizes ->
           name <> Icons.icon_filename size) ->
        Icons.main fs name = fs name)
  /\ (forall a b, Icons.icon_filename a = Icons.icon_filename b -> a = b).
Proof.
  split; [|split].
  - intros size [<-|[<-|[<-|[]]]]; reflexivity.
  - intros name Hn.
    pose proof (Hn 16%Z ltac:(cbn; tauto)) as H16.
    pose proof (Hn 48%Z ltac:(cbn; tauto)) as H48.
    pose proof (Hn 128%Z ltac:(cbn; tauto)) as H128.
    apply String.eqb_neq in H16, H48, H128.
    unfold Icons.main, Icons.sizes. cbn [fold_left]. unfold Icons.save.
    fold (Icons.icon_filename 16) (Icons.icon_filename 48)
      (Icons.icon_filename 128).
    now rewrite H128, H48, H16.
  - intros a b H. unfold Icons.icon_filename in H.
    cbn [String.append] in H. injection H as H.
    apply append_inv_tail in H. now apply str_inj.
Qed.

(** * The claims on concrete documents *)

(** C2 fails as stated: in scenario D the call returns 0 and raises
    nothing; a complete block before the block without end is rewritten,
    and the file is written with that text. *)
Lemma no_error_for_open_block :
  (forall U : UnicodeTables,
      fix_error_references (one_file "d.js" doc_open) "d.js"
      = Some (one_file "d.js" doc_open, 0%Z))
  /\ (forall U : UnicodeTables,
         fix_error_references (one_file "d.js" doc_half_open) "d.js"
         = Some (write_file (one_file "d.js" doc_half_open) "d.js"
                   (txt "catch (_error) { a(_error.m); } catch (_error) { b(error.m);"),
                 1%Z)).
Proof. split; intros U; reflexivity. Qed.

(** C3 fails as stated: a header that is not written [catch (_error) {] is
    not reproduced. *)
Lemma header_not_reproduced :
  (forall U : UnicodeTables,
      fst (rewrite doc_compact) = txt "catch (_error) { }")
  /\ (forall U : UnicodeTables,
         frame_text (segments doc_compact) = doc_compact)
  /\ (forall U : UnicodeTables,
         fst (rewrite doc_compact) <> frame_text (segments doc_compact)).
Proof.
  repeat split; intros U; try (vm_compute; reflexivity).
  vm_compute. discriminate.
Qed.

(** C4.  The script misses what the claim, its own docstring and the
    comment at the brace scan say: in scenario B with a reference to
    [error] in the outer body, [log(error.message)] stands inside a
    [catch (_error)] block and is not rewritten, and the count is 1, not
    2. *)
Lemma outer_reference_not_rewritten :
  (forall U : UnicodeTables,
      rewrite doc_nested_ref
      = (txt "catch (_error) { log(error.message); try { doX(); } catch (_error) { throw _error; } }",
         1%Z))
  /\ (forall U : UnicodeTables, snd (rewrite doc_nested_ref) <> 2%Z).
Proof.
  split; intros U; [vm_compute; reflexivity|].
  vm_compute. discriminate.
Qed.

(** C5 fails as stated: the first pass turns [catch(error){] into a header,
    which the second pass writes anew with blanks. *)
Lemma second_pass_differs :
  (forall U : UnicodeTables,
      rewrite doc_new_header = (txt "catch (_error) {catch(_error){}}", 1%Z))
  /\ (forall U : UnicodeTables,
         rewrite (fst (rewrite doc_new_header))
         = (txt "catch (_error) {catch (_error) {}}", 0%Z))
  /\ (forall U : UnicodeTables,
         fst (rewrite (fst (rewrite doc_new_header)))
         <> fst (rewrite doc_new_header)).
Proof.
  repeat split; intros U; try (vm_compute; reflexivity).
  vm_compute. discriminate.
Qed.

(** C6 fails as stated: a file is written with a count of 0. *)
Lemma written_with_count_zero :
  (forall U : UnicodeTables, rewrite doc_compact = (txt "catch (_error) { }", 0%Z))
  /\ (forall U : UnicodeTables,
         fix_error_references (one_file "a.js" doc_compact) "a.js"
         = Some (write_file (one_file "a.js" doc_compact) "a.js"
                   (txt "catch (_error) { }"),
                 0%Z)).
Proof. split; intros U; reflexivity. Qed.

(** The concrete documents below are ASCII texts. *)
#[local] Existing Instance ascii_tables.

(** C1 at a document with references to [error] before, inside and after
    a block. *)
Lemma outside_text_unaltered_witness :
  segments doc_scope
  = [Outside (txt "log(error.message); "); Header (txt "catch (_error) {");
     Body (txt " log(error.message); ")]
    ++ Outside (txt "} throw error;") :: []
  /\ fst (rewrite doc_scope)
     = txt "log(error.message); catch (_error) { log(_error.message); } throw error;".
Proof.
  assert (H : segments doc_scope
              = [Outside (txt "log(error.message); ");
                 Header (txt "catch (_error) {");
                 Body (txt " log(error.message); ")]
                ++ Outside (txt "} throw error;") :: [])
    by (vm_compute; reflexivity).
  split; [exact H|].
  refine (eq_trans (proj2 (outside_text_unaltered _ _ _ _ H)) _).
  vm_compute; reflexivity.
Defined.

(** C3 at scenario A, where the header is written [catch (_error) {]. *)
Lemma frame_outside_headers_and_bodies_witness :
  Forall (fun h => h = header) (re_findall catch_pattern doc_a)
  /\ fst (rewrite doc_a) = frame_text (segments doc_a).
Proof.
  assert (H : Forall (fun h => h = header) (re_findall catch_pattern doc_a))
    by (vm_compute; repeat constructor).
  split; [exact H|].
  exact (proj2 (proj2 (proj2 (frame_outside_headers_and_bodies doc_a))) H).
Defined.

(** C2 at scenario D. *)
Lemma piece_without_end_kept_witness :
  one_file "d.js" doc_open "d.js"%string = Some doc_open
  /\ blocks doc_open
     = [] ++ (header, txt " console.log(error.message);") :: []
  /\ find_end (txt " console.log(error.message);") = 0
  /\ fst (rewrite doc_open) = doc_open
  /\ fix_error_references (one_file "d.js" doc_open) "d.js"
     = Some (one_file "d.js" doc_open, 0%Z).
Proof.
  assert (H1 : one_file "d.js" doc_open "d.js"%string = Some doc_open)
    by reflexivity.
  assert (H2 : blocks doc_open
               = [] ++ (header, txt " console.log(error.message);") :: [])
    by (vm_compute; reflexivity).
  assert (H3 : find_end (txt " console.log(error.message);") = 0)
    by reflexivity.
  destruct (piece_without_end_kept (one_file "d.js" doc_open) "d.js"%string
              doc_open [] [] header _ [] H1 H2 H3) as (E1 & E2 & _).
  split; [exact H1|]. split; [exact H2|]. split; [exact H3|].
  split; [exact E1 | exact E2].
Defined.

(** The cut at scenario B with a reference to [error] in the outer
    body. *)
Lemma nested_block_inner_only_witness :
  clean (txt " log(error.message); try { doX(); } ")
  /\ clean (txt " throw error; " ++ chr "}" :: txt " }")
  /\ find_end (txt " log(error.message); try { doX(); } ") = 0
  /\ balanced (txt " throw error; ") = true
  /\ rewrite doc_nested_ref
     = (txt "catch (_error) { log(error.message); try { doX(); } catch (_error) { throw _error; } }",
        1%Z).
Proof.
  assert (H1 : clean (txt " log(error.message); try { doX(); } "))
    by (vm_compute; reflexivity).
  assert (H2 : clean (txt " throw error; " ++ chr "}" :: txt " }"))
    by (vm_compute; reflexivity).
  assert (H3 : find_end (txt " log(error.message); try { doX(); } ") = 0)
    by reflexivity.
  assert (H4 : balanced (txt " throw error; ") = true) by reflexivity.
  split; [exact H1|]. split; [exact H2|]. split; [exact H3|].
  split; [exact H4|].
  refine (eq_trans _ (eq_trans
            (proj2 (nested_block_inner_only _ _ (txt " }")) H1 H2 H3 H4) _));
    vm_compute; reflexivity.
Defined.

(** C5 at a block that holds a handler bound to [error]: the rules make a
    header of it, written as the script writes headers, and the second pass
    gives the same text. *)
Lemma rewrite_twice_witness :
  Forall (fun h => h = header)
    (re_findall catch_pattern (fst (rewrite doc_bound)))
  /\ rewrite doc_bound = (txt "catch (_error) {catch (_error) {}}", 1%Z)
  /\ rewrite (fst (rewrite doc_bound))
     = (txt "catch (_error) {catch (_error) {}}", 0%Z).
Proof.
  assert (H : Forall (fun h => h = header)
                (re_findall catch_pattern (fst (rewrite doc_bound))))
    by (vm_compute; repeat constructor).
  split; [exact H|]. split; [vm_compute; reflexivity|].
  refine (eq_trans (proj1 (proj2 (rewrite_twice doc_bound)) H) _).
  vm_compute; reflexivity.
Defined.

(** C6 at scenario A: the text changes and the file is written. *)
Lemma write_gated_on_text_witness :
  one_file "a.js" doc_a "a.js"%string = Some doc_a
  /\ fst (rewrite doc_a) <> doc_a
  /\ fix_error_references (one_file "a.js" doc_a) "a.js"
     = Some (write_file (one_file "a.js" doc_a) "a.js"
               (txt "catch (_error) { console.log(_error.message); }"),
             1%Z).
Proof.
  assert (H1 : one_file "a.js" doc_a "a.js"%string = Some doc_a) by reflexivity.
  assert (H2 : fst (rewrite doc_a) <> doc_a)
    by (vm_compute; discriminate).
  split; [exact H1|]. split; [exact H2|].
  refine (eq_trans
            (proj1 (proj2 (proj2 (write_gated_on_text
                                    (one_file "a.js" doc_a) "a.js"%string doc_a H1)))
               H2) _).
  reflexivity.
Defined.

(** C9 at a body that holds a nested block with the same header. *)
Lemma find_end_matching_brace_witness :
  balanced (txt " try { a(); } catch (_error) { b(); } ") = true
  /\ find_end (txt " try { a(); } catch (_error) { b(); } "
               ++ chr "}" :: txt " rest }")
     = 38.
Proof.
  assert (H : balanced (txt " try { a(); } catch (_error) { b(); } ") = true)
    by reflexivity.
  split; [exact H|].
  exact (proj2 (proj2 (find_end_matching_brace
                         [] (txt " try { a(); } catch (_error) { b(); } ")
                         (txt " rest }") 0)) H).
Defined.

(** C10 at the four contexts the claim names. *)
Lemma other_shapes_untouched_witness :
  in_shape (txt "foo(") (txt ", x);") = false
  /\ in_shape (txt "y = ") (txt ";") = false
  /\ in_shape (txt "log(") (txt " .message);") = false
  /\ in_shape (txt "throw ") (txt " }") = false
  /\ (exists post', fix_body (txt "foo(" ++ txt "error" ++ txt ", x);")
                    = fix_body (txt "foo(") ++ txt "error" ++ post')
  /\ (exists post', fix_body (txt "y = " ++ txt "error" ++ txt ";")
                    = fix_body (txt "y = ") ++ txt "error" ++ post')
  /\ (exists post', fix_body (txt "log(" ++ txt "error" ++ txt " .message);")
                    = fix_body (txt "log(") ++ txt "error" ++ post')
  /\ (exists post', fix_body (txt "throw " ++ txt "error" ++ txt " }")
                    = fix_body (txt "throw ") ++ txt "error" ++ post').
Proof.
  assert (H1 : in_shape (txt "foo(") (txt ", x);") = false) by reflexivity.
  assert (H2 : in_shape (txt "y = ") (txt ";") = false) by reflexivity.
  assert (H3 : in_shape (txt "log(") (txt " .message);") = false)
    by reflexivity.
  assert (H4 : in_shape (txt "throw ") (txt " }") = false) by reflexivity.
  split; [exact H1|]. split; [exact H2|]. split; [exact H3|].
  split; [exact H4|].
  split; [exact (other_shapes_untouched _ _ H1)|].
  split; [exact (other_shapes_untouched _ _ H2)|].
  split; [exact (other_shapes_untouched _ _ H3)|].
  exact (other_shapes_untouched _ _ H4).
Defined.

(** X1 at scenario A: the file is written and 1 is returned. *)
Lemma returns_changes_made_witness :
  one_file "a.js" doc_a "a.js"%string = Some doc_a
  /\ fix_error_references (one_file "a.js" doc_a) "a.js"
     = Some (write_file (one_file "a.js" doc_a) "a.js"
               (txt "catch (_error) { console.log(_error.message); }"),
             1%Z).
Proof.
  assert (H : one_file "a.js" doc_a "a.js"%string = Some doc_a)
    by reflexivity.
  split; [exact H|].
  refine (eq_trans (proj1 (returns_changes_made _ _ _ H)) _).
  vm_compute; reflexivity.
Defined.

(** X5 at scenario A. *)
Lemma file_underscores_before_error_witness :
  Forall (fun h => h = header) (re_findall catch_pattern doc_a)
  /\ inserts (txt "catch (_error) { console.log(_error.message); }") doc_a.
Proof.
  assert (H : Forall (fun h => h = header) (re_findall catch_pattern doc_a))
    by (vm_compute; repeat constructor).
  split; [exact H|].
  exact (file_underscores_before_error doc_a H).
Defined.

(** X9 at a store of two files: scenario A, and a header without
    blanks. *)
Lemma main_keeps_other_files_witness :
  main two_files two_names = Some (two_files_after, 1%Z, 1%Z)
  /\ (forall q, ~ In q two_names -> two_files_after q = two_files q)
  /\ (forall q, two_files_after q = None <-> two_files q = None).
Proof.
  assert (H : main two_files two_names = Some (two_files_after, 1%Z, 1%Z))
    by (vm_compute; reflexivity).
  split; [exact H|].
  exact (main_keeps_other_files _ _ _ _ _ H).
Defined.

(** X10 at the two files. *)
Lemma main_totals_consistent_witness :
  main two_files two_names = Some (two_files_after, 1%Z, 1%Z)
  /\ (0 <= 1 <= 1)%Z /\ (1 <= Z.of_nat (length two_names))%Z.
Proof.
  assert (H : main two_files two_names = Some (two_files_after, 1%Z, 1%Z))
    by (vm_compute; reflexivity).
  split; [exact H|].
  exact (main_totals_consistent _ _ _ _ _ H).
Defined.

(** X11 at the two files: 1 error in 1 file, the second file is written
    with its header in the script's spelling. *)
Lemma main_totals_witness :
  NoDup two_names
  /\ (forall q, In q two_names -> two_files q <> None)
  /\ exists fs',
       main two_files two_names = Some (fs', 1%Z, 1%Z)
       /\ forall q, fs' q = rewritten two_files two_names q.
Proof.
  assert (Hnd : NoDup two_names).
  { unfold two_names. constructor.
    - intros [E|[]]. discriminate.
    - constructor; [intros [] | constructor]. }
  assert (Hr : forall q, In q two_names -> two_files q <> None).
  { intros q [<-|[<-|[]]]; discriminate. }
  split; [exact Hnd|]. split; [exact Hr|].
  exact (main_totals two_files two_names Hnd Hr).
Defined.

(** X12 at the two files. *)
Lemma main_runs_settle_witness :
  main two_files two_names = Some (two_files_after, 1%Z, 1%Z)
  /\ exists fs2,
       main two_files_after two_names = Some (fs2, 0%Z, 0%Z)
       /\ main fs2 two_names = Some (fs2, 0%Z, 0%Z).
Proof.
  assert (H : main two_files two_names = Some (two_files_after, 1%Z, 1%Z))
    by (vm_compute; reflexivity).
  split; [exact H|].
  exact (main_runs_settle _ _ _ _ _ H).
Defined.

(** X13 at the smallest icon of the script. *)
Lemma icon_shapes_inside_witness :
  (1 <= 16)%Z
  /\ (0 <= 16 / 8 <= 16 - 16 / 8)%Z
  /\ (16 - 16 / 8 <= 16)%Z
  /\ Forall (fun s => Icons.within (16 / 8) (16 - 16 / 8) s
                      /\ Icons.ordered s)
       (Icons.im_shapes (Icons.create_bookmark_icon 16)).
Proof.
  assert (H : (1 <= 16)%Z) by lia.
  split; [exact H|].
  exact (icon_shapes_inside 16 H).
Defined.

(** X14 at the smallest icon of the script: the lines fill the rows 6 to
    7, 8 to 9 and 10 to 11. *)
Lemma icon_text_lines_apart_witness :
  (16 <= 16)%Z
  /\ Icons.text_rows (Icons.create_bookmark_icon 16)
     = [(6, 7); (8, 9); (10, 11)]%Z
  /\ exists a0 b0 a1 b1 a2 b2,
       Icons.text_rows (Icons.create_bookmark_icon 16)
       = [(a0, b0); (a1, b1); (a2, b2)]
       /\ (a0 <= b0 < a1)%Z /\ (a1 <= b1 < a2)%Z /\ (a2 <= b2)%Z.
Proof.
  assert (H : (16 <= 16)%Z) by lia.
  split; [exact H|]. split; [reflexivity|].
  exact (icon_text_lines_apart 16 H).
Defined.
